(** * Path-addressed secret store: the three Ansible modules over a KeePass tree

    Shallow embedding of [secret_writer.py], [secret_reader.py] and
    [group_reader.py].  The modules drive an already opened database handle
    ([db], a [PyKeePass] object); the handle is modelled as an explicit state
    (the group tree plus the list of calls made on the handle) threaded
    through a small state-and-exception monad.  Strings are sequences of
    code points below 256; dictionaries are finite maps. *)

From Stdlib Require Import ZArith Ascii String.
From stdpp Require Import gmap strings list fin_maps.

Local Open Scope string_scope.
Local Open Scope list_scope.
Local Open Scope stdpp_scope.

(** ** Python strings and lists *)

Module Py.

(** [s.split(sep)] for a one-character separator: the pieces between the
    separators, empty pieces included; never the empty list. *)
Fixpoint split (sep : ascii) (s : string) : list string :=
  match s with
  | EmptyString => [ EmptyString ]
  | String c s' =>
      if Ascii.eqb c sep then EmptyString :: split sep s'
      else match split sep s' with
           | [] => [ String c EmptyString ]
           | x :: xs => String c x :: xs
           end
  end.

(** Code points below 256 that [str.isspace] accepts. *)
Definition is_space_char (c : ascii) : bool :=
  let n := nat_of_ascii c in
  ((9 <=? n)%nat && (n <=? 13)%nat) || ((28 <=? n)%nat && (n <=? 32)%nat)
  || (n =? 133)%nat || (n =? 160)%nat.

Fixpoint all_space (s : string) : bool :=
  match s with
  | EmptyString => true
  | String c s' => is_space_char c && all_space s'
  end.

(** [s.isspace()]: at least one character, all of them whitespace. *)
Definition isspace (s : string) : bool :=
  match s with
  | EmptyString => false
  | String _ _ => all_space s
  end.

(** Truth value of a string and of an optional string ([None] and [''] are
    false). *)
Definition truthy (s : string) : bool := negb (String.eqb s EmptyString).

Definition truthy_opt (o : option string) : bool :=
  match o with
  | Some s => truthy s
  | None => false
  end.

(** [[e for e in path if e]] *)
Definition compact (path : list string) : list string :=
  List.filter truthy path.

(** [l[i]] with Python's negative indices; [None] stands for [IndexError]. *)
Definition index {A} (l : list A) (i : Z) : option A :=
  let n := Z.of_nat (length l) in
  if (0 <=? i)%Z then l !! Z.to_nat i
  else if (- n <=? i)%Z then l !! Z.to_nat (n + i)
  else None.

End Py.

(** ** The tree store

    The store collaborator (the [pykeepass] handle the modules receive) is
    not part of the repository.  Sections 3 and 6 of the specification give
    its data model and its primitives: exact-path group lookup, exact-path
    entry lookup, group and entry creation under a given parent, entry
    deletion and [save]; the definitions of this part follow them.  Groups
    and entries are Python objects with identity; an object is designated
    here by its position in the tree.  The primitives keep the position of
    every group stable; deleting an entry shifts the entries after it, and
    the modules do not use an entry object after deleting it. *)

Module Entry.
(** Modelled from the spec: the entry of the store collaborator, a named
    leaf with optional username, optional password, optional URL and a
    mapping of custom-property names to string values. *)
Record t := mk {
  title : string;
  username : option string;
  password : option string;
  url : option string;
  custom_properties : gmap string string
}.

Definition set_custom_property (key value : string) (e : t) : t :=
  mk (title e) (username e) (password e) (url e)
     (<[key := value]> (custom_properties e)).
End Entry.

Module Group.
(** Modelled from the spec: the group of the store collaborator, a named
    node with its child groups and its entries, both in the store's order;
    names are not required to be unique. *)
#[warning="-register-all"] Inductive t := mk {
  name : string;
  subgroups : list t;
  entries : list Entry.t
}.

Definition with_subgroups (f : list t → list t) (g : t) : t :=
  mk (name g) (f (subgroups g)) (entries g).

Definition with_entries (f : list Entry.t → list Entry.t) (g : t) : t :=
  mk (name g) (subgroups g) (f (entries g)).

(** A freshly created group: no children. *)
Definition fresh (group_name : string) : t := mk group_name [] [].
End Group.

(** A group object: the child positions leading to it from the root group. *)
Definition GroupRef := list nat.

(** [db.root_group] as an object. *)
Definition root_group_ref : GroupRef := [].

(** An entry object: its group and its position among the group's entries. *)
Definition EntryRef := (GroupRef * nat)%type.

Fixpoint get_group (r : GroupRef) (g : Group.t) : option Group.t :=
  match r with
  | [] => Some g
  | i :: r' =>
      match Group.subgroups g !! i with
      | Some c => get_group r' c
      | None => None
      end
  end.

Definition get_entry (e : EntryRef) (g : Group.t) : option Entry.t :=
  match get_group e.1 g with
  | Some h => Group.entries h !! e.2
  | None => None
  end.

Fixpoint alter_group (f : Group.t → Group.t) (r : GroupRef) (g : Group.t)
  : Group.t :=
  match r with
  | [] => f g
  | i :: r' => Group.with_subgroups (alter (alter_group f r') i) g
  end.

Definition alter_entry (f : Entry.t → Entry.t) (e : EntryRef) (g : Group.t)
  : Group.t :=
  alter_group (Group.with_entries (alter f e.2)) e.1 g.

(** [element.path] of a group: the names from below the root group down to
    the group itself. *)
Fixpoint group_path (r : GroupRef) (g : Group.t) : option (list string) :=
  match r with
  | [] => Some []
  | i :: r' =>
      match Group.subgroups g !! i with
      | Some c => cons (Group.name c) <$> group_path r' c
      | None => None
      end
  end.

(** [entry.path]: the path of the entry's group followed by the title. *)
Definition entry_path (e : EntryRef) (g : Group.t) : option (list string) :=
  match group_path e.1 g, get_entry e g with
  | Some p, Some x => Some (p ++ [Entry.title x])
  | _, _ => None
  end.

(** Modelled from the spec: exact-path group lookup of the store
    collaborator.  Every group whose path is [path], segment by segment and
    by equality of strings, in the store's order; the empty path is the root
    group. *)
Fixpoint group_matches (path : list string) (g : Group.t) : list GroupRef :=
  match path with
  | [] => [ [] ]
  | s :: rest =>
      mjoin (imap (λ i c, if decide (Group.name c = s)
                          then cons i <$> group_matches rest c
                          else [])
                  (Group.subgroups g))
  end.

(** Positions of the entries of a list that carry title [t]. *)
Definition titled (t : string) (es : list Entry.t) : list nat :=
  mjoin (imap (λ j e, if decide (Entry.title e = t) then [j] else []) es).

(** Modelled from the spec: exact-path entry lookup of the store
    collaborator.  The entries whose title is the last segment, in a group
    matched by the segments before it, in the store's order; the empty path
    names no entry. *)
Definition entry_matches (path : list string) (g : Group.t) : list EntryRef :=
  match last path with
  | None => []
  | Some t =>
      gr ← group_matches (removelast path) g;
      match get_group gr g with
      | Some h => pair gr <$> titled t (Group.entries h)
      | None => []
      end
  end.

(** ** The database handle and the calls made on it *)

Inductive Call :=
  | find_entries_by_path_call (path : list string)
  | find_groups_call (path : list string)
  | add_group_call (destination_group : GroupRef) (group_name : string)
  | add_entry_call (destination_group : option GroupRef) (title : string)
  | delete_entry_call (entry : EntryRef)
  | save_call (filename : string).

Record PyKeePass := mkdb {
  root_group : Group.t;
  calls : list Call
}.

(** Python's exceptions, and [StaleReference] for a position that designates
    nothing, which no Python object can be. *)
Inductive exn :=
  | ValueError (msg : string)
  | IndexError
  | AttributeError
  | Exception (msg : string)
  | StaleReference.

Inductive outcome (A : Type) :=
  | Return (a : A)
  | Raise (e : exn).
Arguments Return {A} a.
Arguments Raise {A} e.

(** A computation on the handle: a result or an exception, and the handle as
    the computation left it. *)
Definition M (A : Type) : Type := PyKeePass → outcome A * PyKeePass.

#[global] Instance M_ret : MRet M := λ A a db, (Return a, db).
#[global] Instance M_bind : MBind M := λ A B f m db,
  match m db with
  | (Return a, db') => f a db'
  | (Raise e, db') => (Raise e, db')
  end.

Definition raise {A} (e : exn) : M A := λ db, (Raise e, db).
Definition record_call (c : Call) : M unit :=
  λ db, (Return tt, mkdb (root_group db) (calls db ++ [c])).
Definition get_root : M Group.t := λ db, (Return (root_group db), db).
Definition put_root (g : Group.t) : M unit :=
  λ db, (Return tt, mkdb g (calls db)).
Definition from_option {A} (e : exn) (o : option A) : M A :=
  match o with
  | Some a => mret a
  | None => raise e
  end.

(** *** Primitives of the handle

    Each method call on [db] is recorded in [calls] before it acts. *)

(** Modelled from the spec: [db.find_groups(path=path, first=True)] of the
    store collaborator, the first group at [path] or [None]. *)
Definition find_groups (path : list string) : M (option GroupRef) :=
  record_call (find_groups_call path);;
  g ← get_root;
  mret (head (group_matches path g)).

(** Modelled from the spec: [db.find_entries_by_path(path=path)] of the
    store collaborator, the first entry at [path] or [None]. *)
Definition find_entries_by_path (path : list string) : M (option EntryRef) :=
  record_call (find_entries_by_path_call path);;
  g ← get_root;
  mret (head (entry_matches path g)).

(** Modelled from the spec: [db.add_group(destination_group, group_name)]
    of the store collaborator, group creation under a given parent; the new
    group becomes the last child of its parent. *)
Definition add_group (destination_group : GroupRef) (group_name : string)
  : M GroupRef :=
  record_call (add_group_call destination_group group_name);;
  g ← get_root;
  d ← from_option StaleReference (get_group destination_group g);
  put_root (alter_group
              (Group.with_subgroups (λ l, l ++ [Group.fresh group_name]))
              destination_group g);;
  mret (destination_group ++ [length (Group.subgroups d)]).

(** Modelled from the spec: names are assumed unique in a group, and the
    writer passes [force_creation=True] in its root-group branch only.
    Without that flag the store collaborator refuses to create an entry
    whose title and, when a username is given, username are those of an
    entry of the destination: the check below. *)
Definition clashes (title : string) (username : option string)
    (es : list Entry.t) : bool :=
  existsb (λ e, bool_decide (Entry.title e = title)
                && match username with
                   | Some _ => bool_decide (Entry.username e = username)
                   | None => true
                   end) es.

(** Modelled from the spec: [db.add_entry(destination_group, title,
    username, password, url, force_creation)] of the store collaborator,
    entry creation under a given parent.  The new entry, without custom
    properties, becomes the last entry of the destination.  The call fails
    when the destination is [None], since there is no parent to create the
    entry under, and when the check above finds a clash. *)
Definition add_entry (destination_group : option GroupRef) (title : string)
    (username password url : option string) (force_creation : bool)
  : M EntryRef :=
  record_call (add_entry_call destination_group title);;
  match destination_group with
  | None => raise AttributeError
  | Some r =>
      g ← get_root;
      d ← from_option StaleReference (get_group r g);
      if clashes title username (Group.entries d) && negb force_creation
      then raise (Exception "entry already exists")
      else
        put_root (alter_group
                    (Group.with_entries
                       (λ l, l ++ [Entry.mk title username password url ∅]))
                    r g);;
        mret (r, length (Group.entries d))
  end.

(** Modelled from the spec: [db.delete_entry(entry)] of the store
    collaborator, entry deletion. *)
Definition delete_entry (entry : EntryRef) : M unit :=
  record_call (delete_entry_call entry);;
  g ← get_root;
  _ ← from_option StaleReference (get_entry entry g);
  put_root (alter_group (Group.with_entries (delete entry.2)) entry.1 g).

(** Modelled from the spec: [db.save(db_path)] of the store collaborator,
    the flush to durable storage, of which only the call is kept. *)
Definition save (db_path : string) : M unit :=
  record_call (save_call db_path).

(** Modelled from the spec: reading the attributes of an entry object
    ([entry.username], [entry.password], [entry.custom_properties]) as the
    store has them now. *)
Definition read_entry (entry : EntryRef) : M Entry.t :=
  g ← get_root;
  from_option StaleReference (get_entry entry g).

(** Modelled from the spec: [entry.set_custom_property(key, value)] of the
    store collaborator, attaching one custom property to the entry. *)
Definition set_custom_property (entry : EntryRef) (key value : string)
  : M unit :=
  g ← get_root;
  _ ← from_option StaleReference (get_entry entry g);
  put_root (alter_entry (Entry.set_custom_property key value) entry g).

(** Modelled from the spec: [group.entries] of the store collaborator, the
    entry objects directly inside the group, in the store's order. *)
Definition group_entries (group : GroupRef) : M (list EntryRef) :=
  g ← get_root;
  d ← from_option StaleReference (get_group group g);
  mret (pair group <$> seq 0 (length (Group.entries d))).

(** Modelled from the spec: [entry.path] of the store collaborator, the
    names of the groups from below the root group down to the entry's group,
    then the entry's title. *)
Definition read_entry_path (entry : EntryRef) : M (list string) :=
  g ← get_root;
  from_option StaleReference (entry_path entry g).

(** ** Output shape *)

(** A secret: a dictionary with one key, the secret's name, holding the
    dictionary of its values. *)
Definition SecretRecord := gmap string (gmap string string).

(** The lines every module repeats after [secret[name] = dict()]: username
    and password when they are truthy, then each custom property under its
    own key (the guard on the dictionary of custom properties only skips the
    loop over an empty one). *)
Definition secret_values (e : Entry.t) : gmap string string :=
  let d := ∅ in
  let d := match Entry.username e with
           | Some u => if Py.truthy u then <["username" := u]> d else d
           | None => d
           end in
  let d := match Entry.password e with
           | Some p => if Py.truthy p then <["password" := p]> d else d
           | None => d
           end in
  foldl (λ d kv, <[kv.1 := kv.2]> d) d (map_to_list (Entry.custom_properties e)).

(** [path is None or path == '' or path.isspace()] *)
Definition is_blank (secret_path : option string) : bool :=
  match secret_path with
  | None => true
  | Some s => String.eqb s "" || Py.isspace s
  end.

(** ** secret_writer.py *)

(** [_convert_secret_to_dic(path, entry, changed)] *)
Definition _convert_secret_to_dic (path : list string) (entry : EntryRef)
    (changed : bool) : M (option SecretRecord * bool) :=
  key ← from_option IndexError (Py.index path (-1));
  e ← read_entry entry;
  mret (Some {[ key := secret_values e ]}, changed).

(** [for k in custom_properties:
       entry.set_custom_property(key=str(k), value=str(custom_properties[k]))]
    with keys and values that are strings already. *)
Fixpoint set_custom_properties (entry : EntryRef)
    (items : list (string * string)) : M unit :=
  match items with
  | [] => mret tt
  | (k, v) :: rest =>
      set_custom_property entry k v;;
      set_custom_properties entry rest
  end.

(** Truth value of a dictionary. *)
Definition dict_truthy (d : gmap string string) : bool :=
  negb (bool_decide (d = ∅)).

(** The loop of lines 278-294: walk the groups of [path], creating the ones
    that are missing; [items] is what is left to iterate, [group_path],
    [parent_group] and [i] are the loop's variables. *)
Fixpoint materialize_groups (path items group_path : list string)
    (parent_group : option GroupRef) (i : nat) : M (option GroupRef) :=
  match items with
  | [] => mret parent_group
  | item :: rest =>
      let group_path := group_path ++ [item] in
      final ← from_option IndexError
                (Py.index path (Z.of_nat (length path) - 1));
      if bool_decide (item = final)
         && bool_decide (Z.of_nat i = (Z.of_nat (length path) - 1)%Z)
      then mret parent_group
      else
        group ← find_groups group_path;
        parent_group ←
          match group with
          | None => add_group (default root_group_ref parent_group) item
          | Some group => mret group
          end;
        materialize_groups path rest group_path (Some parent_group) (S i)
  end.

(** Lines 239-264: the branch taken when the split path has one element. *)
Definition secret_write_root (path : list string) (db_path : string)
    (username password url : option string)
    (custom_properties : option (gmap string string)) (force : bool)
  : M (option SecretRecord * bool) :=
  entry ← find_entries_by_path path;
  match entry with
  | Some entry =>
      if negb force then _convert_secret_to_dic path entry false
      else
        delete_entry entry;;
        title ← from_option IndexError
                  (Py.index path (Z.of_nat (length path) - 1));
        entry ← add_entry (Some root_group_ref) title username password url true;
        match custom_properties with
        | Some d => set_custom_properties entry (map_to_list d)
        | None => mret tt
        end;;
        save db_path;;
        _convert_secret_to_dic path entry true
  | None =>
      title ← from_option IndexError
                (Py.index path (Z.of_nat (length path) - 1));
      entry ← add_entry (Some root_group_ref) title username password url true;
      match custom_properties with
      | Some d =>
          if dict_truthy d then set_custom_properties entry (map_to_list d)
          else mret tt
      | None => mret tt
      end;;
      save db_path;;
      _convert_secret_to_dic path entry true
  end.

(** Lines 268-321: what runs after the path was filtered. *)
Definition secret_write_groups (path : list string) (db_path : string)
    (username password url : option string)
    (custom_properties : option (gmap string string)) (force : bool)
  : M (option SecretRecord * bool) :=
  parent_group ← materialize_groups path path [] None 0;
  entry ← find_entries_by_path path;
  match entry with
  | Some entry =>
      if negb force then _convert_secret_to_dic path entry false
      else
        delete_entry entry;;
        title ← from_option IndexError (Py.index path 0);
        entry ← add_entry parent_group title username password url false;
        match custom_properties with
        | Some d =>
            if dict_truthy d then set_custom_properties entry (map_to_list d)
            else mret tt
        | None => mret tt
        end;;
        save db_path;;
        _convert_secret_to_dic path entry true
  | None =>
      title ← from_option IndexError (Py.index path 0);
      entry ← add_entry parent_group title username password url false;
      match custom_properties with
      | Some d =>
          if dict_truthy d then set_custom_properties entry (map_to_list d)
          else mret tt
      | None => mret tt
      end;;
      save db_path;;
      _convert_secret_to_dic path entry true
  end.

(** [secret_write(secret_path, db, db_path, username, password, url,
    custom_properties, force)]; [db] is the state of the computation. *)
Definition secret_write (secret_path : option string) (db_path : string)
    (username password url : option string)
    (custom_properties : option (gmap string string)) (force : bool)
  : M (option SecretRecord * bool) :=
  match secret_path with
  | None => raise (ValueError "secret_path is required")
  | Some s =>
      if String.eqb s "" || Py.isspace s
      then raise (ValueError "secret_path is required")
      else
        let path := Py.split "/" s in
        if (1 <? length path)%nat then
          let path := Py.compact path in
          secret_write_groups path db_path username password url
            custom_properties force
        else if (length path =? 1)%nat then
          secret_write_root path db_path username password url
            custom_properties force
        else mret (None, false)
  end.

(** ** secret_writer.py, with [db.save] taken as a parameter

    [db.save] belongs to the store collaborator.  The three definitions
    below are the three above, line for line, with the flush as the
    parameter [save]: what the writer does around the flush can then be
    stated for every behaviour of the flush, one that fails included.  With
    the [save] of this file they are the definitions above. *)
Module with_save.
Section save.
Variable save : string → M unit.

(** Lines 239-264. *)
Definition secret_write_root (path : list string) (db_path : string)
    (username password url : option string)
    (custom_properties : option (gmap string string)) (force : bool)
  : M (option SecretRecord * bool) :=
  entry ← find_entries_by_path path;
  match entry with
  | Some entry =>
      if negb force then _convert_secret_to_dic path entry false
      else
        delete_entry entry;;
        title ← from_option IndexError
                  (Py.index path (Z.of_nat (length path) - 1));
        entry ← add_entry (Some root_group_ref) title username password url true;
        match custom_properties with
        | Some d => set_custom_properties entry (map_to_list d)
        | None => mret tt
        end;;
        save db_path;;
        _convert_secret_to_dic path entry true
  | None =>
      title ← from_option IndexError
                (Py.index path (Z.of_nat (length path) - 1));
      entry ← add_entry (Some root_group_ref) title username password url true;
      match custom_properties with
      | Some d =>
          if dict_truthy d then set_custom_properties entry (map_to_list d)
          else mret tt
      | None => mret tt
      end;;
      save db_path;;
      _convert_secret_to_dic path entry true
  end.

(** Lines 268-321. *)
Definition secret_write_groups (path : list string) (db_path : string)
    (username password url : option string)
    (custom_properties : option (gmap string string)) (force : bool)
  : M (option SecretRecord * bool) :=
  parent_group ← materialize_groups path path [] None 0;
  entry ← find_entries_by_path path;
  match entry with
  | Some entry =>
      if negb force then _convert_secret_to_dic path entry false
      else
        delete_entry entry;;
        title ← from_option IndexError (Py.index path 0);
        entry ← add_entry parent_group title username password url false;
        match custom_properties with
        | Some d =>
            if dict_truthy d then set_custom_properties entry (map_to_list d)
            else mret tt
        | None => mret tt
        end;;
        save db_path;;
        _convert_secret_to_dic path entry true
  | None =>
      title ← from_option IndexError (Py.index path 0);
      entry ← add_entry parent_group title username password url false;
      match custom_properties with
      | Some d =>
          if dict_truthy d then set_custom_properties entry (map_to_list d)
          else mret tt
      | None => mret tt
      end;;
      save db_path;;
      _convert_secret_to_dic path entry true
  end.

(** Lines 211-321. *)
Definition secret_write (secret_path : option string) (db_path : string)
    (username password url : option string)
    (custom_properties : option (gmap string string)) (force : bool)
  : M (option SecretRecord * bool) :=
  match secret_path with
  | None => raise (ValueError "secret_path is required")
  | Some s =>
      if String.eqb s "" || Py.isspace s
      then raise (ValueError "secret_path is required")
      else
        let path := Py.split "/" s in
        if (1 <? length path)%nat then
          let path := Py.compact path in
          secret_write_groups path db_path username password url
            custom_properties force
        else if (length path =? 1)%nat then
          secret_write_root path db_path username password url
            custom_properties force
        else mret (None, false)
  end.

End save.
End with_save.

(** ** secret_reader.py *)

(** [secret_to_dic(db, secret_path)] *)
Definition secret_to_dic (secret_path : option string) : M SecretRecord :=
  match secret_path with
  | None => raise (ValueError "secret_path is required")
  | Some s =>
      if String.eqb s "" || Py.isspace s
      then raise (ValueError "secret_path is required")
      else
        let path := Py.split "/" s in
        entry ← find_entries_by_path path;
        match entry with
        | None => mret ∅
        | Some entry =>
            key ← from_option IndexError (Py.index path (-1));
            e ← read_entry entry;
            mret {[ key := secret_values e ]}
        end
  end.

(** ** group_reader.py *)

(** The loop of lines 167-183. *)
Fixpoint group_to_dic_loop (entries : list EntryRef)
    (group_secrets : list SecretRecord) : M (list SecretRecord) :=
  match entries with
  | [] => mret group_secrets
  | entry :: rest =>
      p ← read_entry_path entry;
      entry ← find_entries_by_path p;
      match entry with
      | None => group_to_dic_loop rest group_secrets
      | Some entry =>
          p ← read_entry_path entry;
          key ← from_option IndexError (Py.index p (-1));
          e ← read_entry entry;
          group_to_dic_loop rest (group_secrets ++ [ {[ key := secret_values e ]} ])
      end
  end.

(** [group_to_dic(db, group_path)] *)
Definition group_to_dic (group_path : option string) : M (list SecretRecord) :=
  match group_path with
  | None => raise (ValueError "secret_path is required")
  | Some s =>
      if String.eqb s "" || Py.isspace s
      then raise (ValueError "secret_path is required")
      else
        let path := Py.split "/" s in
        if (0 <? length path)%nat then
          let path := Py.compact path in
          group ← find_groups path;
          match group with
          | None => mret []
          | Some group =>
              entries ← group_entries group;
              group_to_dic_loop entries []
          end
        else mret []
  end.

(** * Definitions used in the statements *)

Definition name_and_entries (h : Group.t) : string * list Entry.t :=
  (Group.name h, Group.entries h).

(** Every group of [old] is still at its position in [new], under the same
    name and with the same entries. *)
Definition kept (old new : Group.t) : Prop :=
  ∀ r h, get_group r old = Some h →
    ∃ h', get_group r new = Some h'
          ∧ Group.name h' = Group.name h
          ∧ Group.entries h' = Group.entries h.

Definition append_group (group_name : string) : Group.t → Group.t :=
  Group.with_subgroups (λ l, l ++ [Group.fresh group_name]).

(** Every entry of [new] is an entry of [old], at the same position and
    under the same path. *)
Definition reflects (old new : Group.t) : Prop :=
  ∀ e path, entry_path e new = Some path → entry_path e old = Some path.

Definition is_lookup (c : Call) : bool :=
  match c with
  | find_entries_by_path_call _ | find_groups_call _ => true
  | _ => false
  end.

Definition is_save (c : Call) : bool :=
  match c with
  | save_call _ => true
  | _ => false
  end.

Definition is_add_group (c : Call) : bool :=
  match c with
  | add_group_call _ _ => true
  | _ => false
  end.

Definition is_add_entry (c : Call) : bool :=
  match c with
  | add_entry_call _ _ => true
  | _ => false
  end.

(** The calls a computation adds are those of [calls] after the ones that
    were there. *)
Definition logged (db db' : PyKeePass) (evs : list Call) : Prop :=
  calls db' = calls db ++ evs.

Definition is_walk_call (c : Call) : bool := is_lookup c || is_add_group c.

Definition valid_parent (parent_group : option GroupRef) (g : Group.t) : Prop :=
  ∀ r, parent_group = Some r → is_Some (get_group r g).

Definition new_entry (title : string) (username password url : option string)
  : Entry.t := Entry.mk title username password url ∅.

Definition append_entry (x : Entry.t) : Group.t → Group.t :=
  Group.with_entries (λ l, l ++ [x]).

Definition set_all (items : list (string * string)) (x : Entry.t) : Entry.t :=
  foldl (λ x kv, Entry.set_custom_property kv.1 kv.2 x) x items.

(** The step that attaches the custom properties, in either of its two
    guards: it makes no call and leaves the entry in place, under its
    title. *)
Definition attaches (step : EntryRef → M unit) : Prop :=
  ∀ entry db x,
    get_entry entry (root_group db) = Some x →
    ∃ g' x', step entry db = (Return tt, mkdb g' (calls db))
             ∧ get_entry entry g' = Some x'
             ∧ Entry.title x' = Entry.title x.

(** The tail shared by the four creating branches: create, attach, save,
    convert. *)
Definition creation_tail (path : list string) (db_path : string)
    (destination_group : option GroupRef) (title : string)
    (username password url : option string) (force_creation : bool)
    (step : EntryRef → M unit) : M (option SecretRecord * bool) :=
  entry ← add_entry destination_group title username password url
            force_creation;
  step entry;;
  save db_path;;
  _convert_secret_to_dic path entry true.

Definition not_save (c : Call) : bool := negb (is_save c).

(** What a run of the writer may leave in [calls]: [save] closes the run
    exactly when the run reports a change, and a run that reports no change
    has only looked things up and left the tree as it was.  A run that
    raises does so with one of Python's exceptions. *)
Definition disciplined (db_path : string) (db : PyKeePass)
    (run : outcome (option SecretRecord * bool) * PyKeePass) : Prop :=
  ∃ evs, logged db run.2 evs ∧
    match run.1 with
    | Return (_, true) =>
        ∃ before, evs = before ++ [save_call db_path]
                  ∧ forallb not_save before = true
                  ∧ existsb is_add_entry before = true
    | Return (_, false) =>
        forallb is_lookup evs = true ∧ root_group run.2 = root_group db
    | Raise e => forallb not_save evs = true ∧ e ≠ StaleReference
    end.

(** The segments of a path string: its pieces between slashes, the empty
    ones dropped (writer lines 232-236, group reader lines 148-152). *)
Definition segments (s : string) : list string := Py.compact (Py.split "/" s).

(** Every proper, non-empty prefix of [path] names a group of the tree. *)
Definition groups_exist (path : list string) (g : Group.t) : bool :=
  forallb (λ k, match head (group_matches (take k path) g) with
                | Some _ => true
                | None => false
                end)
          (seq 1 (length path - 1)).

(** What the specification asks of one entry of the group: resolve it again
    by its own path, and if that succeeds give the record of the entry
    found, under its terminal name. *)
Definition reresolved_record (g : Group.t) (entry : EntryRef)
  : option SecretRecord :=
  p ← entry_path entry g;
  found ← head (entry_matches p g);
  x ← get_entry found g;
  Some {[ Entry.title x := secret_values x ]}.

(** The specification of the bulk read: nothing when no group is at the
    path; otherwise the records of the direct entries of the group, in the
    store's order, the entries that fail to resolve again left out. *)
Definition group_records (path : list string) (g : Group.t)
  : list SecretRecord :=
  match head (group_matches path g) with
  | None => []
  | Some group =>
      match get_group group g with
      | Some d =>
          omap (reresolved_record g)
               (pair group <$> seq 0 (length (Group.entries d)))
      | None => []
      end
  end.

(** The lookup the bulk read makes for an entry: of the entry's own path. *)
Definition reresolution_call (g : Group.t) (entry : EntryRef) : Call :=
  find_entries_by_path_call (default [] (entry_path entry g)).

(** The calls of the bulk read: the lookup of the group, then one lookup per
    direct entry of the group, in the store's order. *)
Definition group_lookups (path : list string) (g : Group.t) : list Call :=
  find_groups_call path ::
  match head (group_matches path g) with
  | None => []
  | Some group =>
      match get_group group g with
      | Some d =>
          reresolution_call g
            <$> (pair group <$> seq 0 (length (Group.entries d)))
      | None => []
      end
  end.

Definition put (d : gmap string string) (kv : string * string)
  : gmap string string := <[kv.1 := kv.2]> d.

(** What [secret_to_dic] returns for the list it hands to the lookup. *)
Definition secret_record (path : list string) (g : Group.t) : SecretRecord :=
  match head (entry_matches path g) with
  | None => ∅
  | Some entry =>
      match last path, get_entry entry g with
      | Some key, Some x => {[ key := secret_values x ]}
      | _, _ => ∅
      end
  end.

(** The end of a branch that creates or replaces the entry: the flush, then
    the record of the entry is built. *)
Definition flush_and_convert (save : string → M unit) (db_path : string)
    (path : list string) (entry : EntryRef)
  : M (option SecretRecord * bool) :=
  save db_path;;
  _convert_secret_to_dic path entry true.

(** The tail shared by the four creating branches, over any flush. *)
Definition creation_tail_with (save : string → M unit) (path : list string)
    (db_path : string) (destination_group : option GroupRef) (title : string)
    (username password url : option string) (force_creation : bool)
    (step : EntryRef → M unit) : M (option SecretRecord * bool) :=
  entry ← add_entry destination_group title username password url
            force_creation;
  step entry;;
  save db_path;;
  _convert_secret_to_dic path entry true.




(** ** Sample stores *)

(** A store with nothing but its root group. *)
Definition empty_root : Group.t := Group.mk "Root" [] [].

(** The handle on a store just opened: no call made yet. *)
Definition open_db (g : Group.t) : PyKeePass := mkdb g [].

(** Root / a / b, with an entry [c] in [b] that has a custom property. *)
Definition store_abc : Group.t :=
  Group.mk "Root"
    [ Group.mk "a"
        [ Group.mk "b" []
            [ Entry.mk "c" (Some "old") (Some "oldpw") None
                {[ "note" := "n" ]} ] ]
        [] ]
    [].

(** Root / a, with an entry [c] in [a] that has a custom property. *)
Definition store_ac : Group.t :=
  Group.mk "Root"
    [ Group.mk "a" []
        [ Entry.mk "c" (Some "old") (Some "oldpw") None {[ "note" := "n" ]} ] ]
    [].

(** Root / g, with two entries [x] and [g] of the same username. *)
Definition store_clash : Group.t :=
  Group.mk "Root"
    [ Group.mk "g" []
        [ Entry.mk "x" (Some "u") (Some "p1") None ∅;
          Entry.mk "g" (Some "u") (Some "p2") None ∅ ] ]
    [].

(** An entry [c] in the root group, with a custom property. *)
Definition store_c : Group.t :=
  Group.mk "Root" []
    [ Entry.mk "c" (Some "old") (Some "oldpw") None {[ "note" := "n" ]} ].

(** Root / g with entries [x], [y], [z]; [y] has a custom property named
    [username]. *)
Definition store_xyz : Group.t :=
  Group.mk "Root"
    [ Group.mk "g" []
        [ Entry.mk "x" (Some "ux") (Some "px") None ∅;
          Entry.mk "y" (Some "uy") (Some "py") None {[ "username" := "shadow" ]};
          Entry.mk "z" None None None ∅ ] ]
    [].

(** ** What a write stores *)

(** The entry a creating branch of the writer leaves in the store: the given
    title and fields, and the given custom properties and no other. *)
Definition written (title : string) (username password url : option string)
    (custom_properties : option (gmap string string)) : Entry.t :=
  Entry.mk title username password url (default ∅ custom_properties).

(** The step that attaches the custom properties, run on an entry that was
    just appended to its group: the entry ends with all of them set. *)
Definition attaches_all (custom_properties : option (gmap string string))
    (step : EntryRef → M unit) : Prop :=
  ∀ r g d y db,
    get_group r g = Some d →
    root_group db = alter_group (append_entry y) r g →
    step (r, length (Group.entries d)) db
    = (Return tt,
       mkdb (alter_group
               (append_entry
                  (set_all (map_to_list (default ∅ custom_properties)) y))
               r g)
            (calls db)).

(** ** The entry points of the modules

    [run_module] of each file, from the line after [AnsibleModule] was
    built, then [main] and the module body that calls it.  What the
    functions get from outside the repository is given to them: the flag
    [HAS_LIB] as the import at the head of the file left it, the file test, the
    creation and the opening of a database as [Host]; [module.check_mode]
    and [module.params] as arguments.  [exit_json] and [fail_json] end the
    run. *)

(** [module.params['secret_value']] when it is a dictionary, as the
    documentation of the writer types it: each of the four keys may be
    missing, hold [None], or hold a value. *)
Module SecretValue.
Record t := mk {
  username : option (option string);
  password : option (option string);
  url : option (option string);
  custom_properties : option (option (gmap string string))
}.
End SecretValue.

(** [module.params] of the writer, as [module_args] types it: three
    required strings, [secret_value] a dictionary or [None], [force] a
    boolean. *)
Module WriterParams.
Record t := mk {
  db_path : string;
  db_password : string;
  secret_path : string;
  secret_value : option SecretValue.t;
  force : bool
}.
End WriterParams.

(** [module.params] of the single-secret reader: three required strings. *)
Module ReaderParams.
Record t := mk {
  db_path : string;
  db_password : string;
  secret_path : string
}.
End ReaderParams.

(** [module.params] of the group reader: three required strings. *)
Module GroupParams.
Record t := mk {
  db_path : string;
  db_password : string;
  group_path : string
}.
End GroupParams.

(** What the entry points use of their host: [HAS_LIB], true when
    [pykeepass] was imported and false when the import raised
    [ModuleNotFoundError], [os.path.isfile],
    [create_database] (an error or nothing) and the constructor [PyKeePass]
    (an error or the handle on the opened store). *)
Record Host := mkhost {
  HAS_LIB : bool;
  isfile : string → bool;
  create_database : string → string → option string;
  PyKeePass_open : string → string → string + PyKeePass
}.

Inductive HostCall :=
  | isfile_call (path : string)
  | create_database_call (filename password : string)
  | PyKeePass_call (filename password : string).

(** The [msg] of [fail_json]. *)
Inductive FailMsg :=
  | missing_required_lib (library : string)
  | msg_text (text : string).

(** The [exception] of [fail_json]: the import error kept at import, or what
    the [except Exception] clause caught. *)
Inductive Caught :=
  | LIB_IMP_ERR
  | caught_exn (e : exn)
  | caught_TypeError
  | caught_host (error : string).

Inductive Exit (R : Type) :=
  | exit_json (result : R)
  | fail_json (msg : FailMsg) (exception : Caught).
Arguments exit_json {R} result.
Arguments fail_json {R} msg exception.

(** A run of an entry point: how it ended, the calls it made on its host,
    and the handle as the run left it when a store was opened. *)
Record Run (R : Type) := mkrun {
  exit : Exit R;
  host_calls : list HostCall;
  handle : option PyKeePass
}.
Arguments mkrun {R} exit host_calls handle.
Arguments exit {R} r.
Arguments host_calls {R} r.
Arguments handle {R} r.

(** How a run of a module file ends: the module body raises [NameError]
    before it reaches the call of [main()], or [main()] ran. *)
Inductive Program (R : Type) :=
  | NameError (name : string)
  | ran (run : Run R).
Arguments NameError {R} name.
Arguments ran {R} run.

(** The dictionary [result] of the writer; [path] is set on the way out
    only. *)
Module WriterResult.
Record t := mk {
  changed : bool;
  secret : option SecretRecord;
  failed : bool;
  path : option string
}.
End WriterResult.

Module ReaderResult.
Record t := mk {
  changed : bool;
  secret : SecretRecord;
  failed : bool
}.
End ReaderResult.

(** The dictionary [result] of the group reader; [group] starts as an empty
    dictionary and is replaced by the list of secrets. *)
Module GroupResult.
Record t := mk {
  changed : bool;
  group : SecretRecord + list SecretRecord;
  failed : bool;
  path : option string
}.
End GroupResult.

Module secret_writer.
(** [run_module()] of secret_writer.py, lines 147-208.  The test of
    [HAS_LIB] is the function's, as written; [module_body] below is the only
    caller, and it calls with [HAS_LIB] true. *)
Definition run_module (host : Host) (check_mode : bool)
    (params : WriterParams.t) : Run WriterResult.t :=
  let result := WriterResult.mk false (Some ∅) false None in
  if negb (HAS_LIB host) then
    mkrun (fail_json (missing_required_lib "pykeepass") LIB_IMP_ERR) [] None
  else if check_mode then mkrun (exit_json result) [] None
  else
    let db_path := WriterParams.db_path params in
    let db_password := WriterParams.db_password params in
    let failure := fail_json (msg_text "Failed to write keepass secret") in
    let present := isfile host db_path in
    let creation :=
      if present then [] else [create_database_call db_path db_password] in
    match (if present then None else create_database host db_path db_password)
    with
    | Some error =>
        mkrun (failure (caught_host error))
              (isfile_call db_path :: creation) None
    | None =>
        let opened :=
          isfile_call db_path
          :: creation ++ [PyKeePass_call db_path db_password] in
        match PyKeePass_open host db_path db_password with
        | inl error => mkrun (failure (caught_host error)) opened None
        | inr db =>
            match WriterParams.secret_value params with
            | None => mkrun (failure caught_TypeError) opened (Some db)
            | Some value =>
                let secret_username :=
                  default None (SecretValue.username value) in
                let secret_password :=
                  default None (SecretValue.password value) in
                let secret_url := default None (SecretValue.url value) in
                let secret_custom_properties :=
                  default None (SecretValue.custom_properties value) in
                let force := WriterParams.force params in
                match secret_write (Some (WriterParams.secret_path params))
                        db_path secret_username secret_password secret_url
                        secret_custom_properties force db
                with
                | (Return (secret_dic, changed), db') =>
                    mkrun (exit_json
                             (WriterResult.mk changed secret_dic false
                                (Some (WriterParams.secret_path params))))
                          opened (Some db')
                | (Raise e, db') =>
                    mkrun (failure (caught_exn e)) opened (Some db')
                end
            end
        end
    end.

(** [main()], lines 342-348. *)
Definition main (host : Host) (check_mode : bool) (params : WriterParams.t)
  : Run WriterResult.t :=
  run_module host check_mode params.

(** The module file run as a script.  When the import of lines 14-20 failed,
    the name [PyKeePass] is unbound, and the statement
    [def secret_write(secret_path: str, db: PyKeePass, ...)] of line 211,
    whose annotations are evaluated when the statement runs (as Python does
    before version 3.14), raises [NameError]; line 351 and its call of
    [main()] are not reached. *)
Definition module_body (host : Host) (check_mode : bool)
    (params : WriterParams.t) : Program WriterResult.t :=
  if HAS_LIB host then ran (main host check_mode params)
  else NameError "PyKeePass".
End secret_writer.

Module secret_reader.
(** [run_module()] of secret_reader.py, lines 88-120.  The test of
    [HAS_LIB] is the function's, as written; [module_body] below is the only
    caller, and it calls with [HAS_LIB] true. *)
Definition run_module (host : Host) (check_mode : bool)
    (params : ReaderParams.t) : Run ReaderResult.t :=
  let result := ReaderResult.mk true ∅ false in
  if negb (HAS_LIB host) then
    mkrun (fail_json (missing_required_lib "pykeepass") LIB_IMP_ERR) [] None
  else if check_mode then mkrun (exit_json result) [] None
  else
    let db_path := ReaderParams.db_path params in
    let db_password := ReaderParams.db_password params in
    let failure := fail_json (msg_text "Failed to read keepass secret") in
    let opened := [PyKeePass_call db_path db_password] in
    match PyKeePass_open host db_path db_password with
    | inl error => mkrun (failure (caught_host error)) opened None
    | inr db =>
        match secret_to_dic (Some (ReaderParams.secret_path params)) db with
        | (Return secret_dic, db') =>
            mkrun (exit_json (ReaderResult.mk true secret_dic false))
                  opened (Some db')
        | (Raise e, db') => mkrun (failure (caught_exn e)) opened (Some db')
        end
    end.

(** [main()], lines 150-156. *)
Definition main (host : Host) (check_mode : bool) (params : ReaderParams.t)
  : Run ReaderResult.t :=
  run_module host check_mode params.

(** The module file run as a script.  When the import of lines 12-18 failed,
    the name [PyKeePass] is unbound, and the statement
    [def secret_to_dic(db: PyKeePass, secret_path: str)] of line 123 raises
    [NameError]; the call of [main()] is not reached. *)
Definition module_body (host : Host) (check_mode : bool)
    (params : ReaderParams.t) : Program ReaderResult.t :=
  if HAS_LIB host then ran (main host check_mode params)
  else NameError "PyKeePass".
End secret_reader.

Module group_reader.
(** [run_module()] of group_reader.py, lines 96-129.  The test of
    [HAS_LIB] is the function's, as written; [module_body] below is the only
    caller, and it calls with [HAS_LIB] true. *)
Definition run_module (host : Host) (check_mode : bool)
    (params : GroupParams.t) : Run GroupResult.t :=
  let result := GroupResult.mk true (inl ∅) false None in
  if negb (HAS_LIB host) then
    mkrun (fail_json (missing_required_lib "pykeepass") LIB_IMP_ERR) [] None
  else if check_mode then mkrun (exit_json result) [] None
  else
    let db_path := GroupParams.db_path params in
    let db_password := GroupParams.db_password params in
    let failure :=
      fail_json (msg_text "Failed to read keepass group secrets") in
    let opened := [PyKeePass_call db_path db_password] in
    match PyKeePass_open host db_path db_password with
    | inl error => mkrun (failure (caught_host error)) opened None
    | inr db =>
        match group_to_dic (Some (GroupParams.group_path params)) db with
        | (Return group_secret_dic, db') =>
            mkrun (exit_json
                     (GroupResult.mk true (inr group_secret_dic) false
                        (Some (GroupParams.group_path params))))
                  opened (Some db')
        | (Raise e, db') => mkrun (failure (caught_exn e)) opened (Some db')
        end
    end.

(** [main()], lines 188-194. *)
Definition main (host : Host) (check_mode : bool) (params : GroupParams.t)
  : Run GroupResult.t :=
  run_module host check_mode params.

(** The module file run as a script.  When the import of lines 12-18 failed,
    the name [PyKeePass] is unbound, and the statement
    [def group_to_dic(db: PyKeePass, group_path: str)] of line 132 raises
    [NameError]; the call of [main()] is not reached. *)
Definition module_body (host : Host) (check_mode : bool)
    (params : GroupParams.t) : Program GroupResult.t :=
  if HAS_LIB host then ran (main host check_mode params)
  else NameError "PyKeePass".
End group_reader.

(** A host with the library, on which the file is there and the store
    [g] opens. *)
Definition host_with (g : Group.t) : Host :=
  mkhost true (λ _, true) (λ _ _, None) (λ _ _, inr (open_db g)).

(** A host with the library, on which no file is there yet, every creation
    succeeds and the store [g] opens. *)
Definition fresh_host (g : Group.t) : Host :=
  mkhost true (λ _, false) (λ _ _, None) (λ _ _, inr (open_db g)).

(** The secret of the writer's documented example. *)
Definition john_doe : SecretValue.t :=
  SecretValue.mk (Some (Some "John")) (Some (Some "Doe")) None
    (Some (Some {[ "gender" := "Male" ]})).

(** The parameters of the documented examples, for a given path. *)
Definition write_task (secret_path : string)
    (secret_value : option SecretValue.t) : WriterParams.t :=
  WriterParams.mk "keys.kdbx" "password" secret_path secret_value false.

Definition read_task (secret_path : string) : ReaderParams.t :=
  ReaderParams.mk "keys.kdbx" "password" secret_path.

Definition group_read_task (group_path : string) : GroupParams.t :=
  GroupParams.mk "keys.kdbx" "password" group_path.

(** * Properties *)

(** ** Python helpers *)

Example split_example :
  Py.split "/" "/a//b/" = [""; "a"; ""; "b"; ""].
Proof. reflexivity. Qed.

Lemma split_nonempty sep s : Py.split sep s ≠ [].
Proof.
  destruct s as [|c s]; simpl; [done|].
  destruct (Ascii.eqb c sep); [done|].
  by destruct (Py.split sep s).
Qed.

Lemma split_length_pos sep s : 0 < length (Py.split sep s).
Proof.
  pose proof (split_nonempty sep s).
  destruct (Py.split sep s); simpl; [done|lia].
Qed.

(** A string without separator is its own single piece. *)
Lemma split_single sep s :
  length (Py.split sep s) = 1 → Py.split sep s = [s].
Proof.
  induction s as [|c s IH]; simpl; [done|].
  destruct (Ascii.eqb c sep).
  - pose proof (split_length_pos sep s). simpl. lia.
  - destruct (Py.split sep s) as [|x xs] eqn:E.
    + by destruct (split_nonempty sep s).
    + simpl. intros Hlen. destruct xs; [|simpl in Hlen; lia].
      specialize (IH eq_refl). by inversion IH.
Qed.

Lemma truthy_true s : Py.truthy s = true ↔ s ≠ "".
Proof.
  unfold Py.truthy. destruct (String.eqb_spec s ""); simpl; split; congruence.
Qed.

Lemma index_last {A} (l : list A) :
  Py.index l (Z.of_nat (length l) - 1) = last l.
Proof.
  unfold Py.index. destruct l as [|x l] using rev_ind.
  - reflexivity.
  - rewrite length_app, last_snoc. simpl.
    destruct (Z.leb_spec 0 (Z.of_nat (length l + 1) - 1)); [|lia].
    replace (Z.to_nat (Z.of_nat (length l + 1) - 1)) with (length l) by lia.
    by apply list_lookup_middle.
Qed.

Lemma index_minus_one {A} (l : list A) : Py.index l (-1) = last l.
Proof.
  unfold Py.index. destruct l as [|x l] using rev_ind.
  - reflexivity.
  - rewrite length_app, last_snoc. simpl.
    destruct (Z.leb_spec (- Z.of_nat (length l + 1)) (-1)); [|lia].
    replace (Z.to_nat (Z.of_nat (length l + 1) + -1)) with (length l) by lia.
    by apply list_lookup_middle.
Qed.

Lemma index_zero {A} (l : list A) : Py.index l 0 = head l.
Proof. unfold Py.index. simpl. by destruct l. Qed.

Lemma compact_nonempty_elements path : Forall (λ s, s ≠ "") (Py.compact path).
Proof.
  unfold Py.compact. apply Forall_forall. intros s Hs.
  apply list_elem_of_In, filter_In in Hs as [_ Hs]. by apply truthy_true.
Qed.

(** For a path that is not blank the writer always works on the filtered
    pieces: a split of length one is the string itself, which is not
    empty. *)
Lemma compact_split_single s :
  s ≠ "" → length (Py.split "/" s) = 1 →
  Py.split "/" s = Py.compact (Py.split "/" s).
Proof.
  intros Hs Hlen. rewrite (split_single _ _ Hlen). unfold Py.compact. simpl.
  by apply truthy_true in Hs as ->.
Qed.

(** ** The tree: positions, paths and lookups *)

Section tree.
Implicit Types (g h c : Group.t) (r q : GroupRef) (path p : list string).

Lemma group_path_length r g p : group_path r g = Some p → length p = length r.
Proof.
  revert g p. induction r as [|i r IH]; intros g p; simpl.
  - by intros [= <-].
  - destruct (Group.subgroups g !! i) as [c|]; [|done].
    destruct (group_path r c) as [p'|] eqn:E; simpl; [|done].
    intros [= <-]. simpl. f_equal. eauto.
Qed.

Lemma group_path_valid r g p :
  group_path r g = Some p → is_Some (get_group r g).
Proof.
  revert g p. induction r as [|i r IH]; intros g p; simpl; [eauto|].
  destruct (Group.subgroups g !! i) as [c|]; [|done].
  destruct (group_path r c) as [p'|] eqn:E; simpl; [|done]. eauto.
Qed.

Lemma get_group_path r g h :
  get_group r g = Some h → is_Some (group_path r g).
Proof.
  revert g. induction r as [|i r IH]; intros g; simpl; [eauto|].
  destruct (Group.subgroups g !! i) as [c|]; [|done].
  intros H. destruct (IH _ H) as [p ->]. simpl. eauto.
Qed.

(** The exact-path lookup returns the groups whose path is [path], and all
    of them. *)
Lemma elem_of_group_matches path r g :
  r ∈ group_matches path g ↔ group_path r g = Some path.
Proof.
  revert r g. induction path as [|s rest IH]; intros r g; simpl.
  - rewrite list_elem_of_singleton. destruct r as [|i r]; simpl; [done|].
    split; [done|]. destruct (Group.subgroups g !! i); [|done].
    by destruct (group_path r t).
  - rewrite list_elem_of_join. split.
    + intros (l & Hr & Hl). apply elem_of_lookup_imap in Hl as (i & c & -> & Hc).
      case_decide as Hn; [|by apply not_elem_of_nil in Hr].
      apply list_elem_of_fmap in Hr as (r' & -> & Hr'). simpl.
      rewrite Hc. apply IH in Hr'. rewrite Hr'. simpl. by subst s.
    + destruct r as [|i r]; simpl; [done|].
      destruct (Group.subgroups g !! i) as [c|] eqn:Hc; [|done].
      destruct (group_path r c) as [p'|] eqn:E; simpl; [|done].
      intros [= Hn <-].
      exists (cons i <$> group_matches p' c). split.
      * apply list_elem_of_fmap. exists r. split; [done|]. by apply IH.
      * apply elem_of_lookup_imap. exists i, c. split; [|done].
        by rewrite decide_True.
Qed.

Lemma group_path_app r g p1 p2 :
  group_path r g = Some (p1 ++ p2) →
  group_path (take (length p1) r) g = Some p1.
Proof.
  revert g p1. induction r as [|i r IH]; intros g p1; simpl.
  - intros [= H]. symmetry in H. apply app_eq_nil in H as [-> _]. done.
  - destruct (Group.subgroups g !! i) as [c|] eqn:Hc; [|done].
    destruct (group_path r c) as [p'|] eqn:E; simpl; [|done].
    intros [= H]. destruct p1 as [|s p1]; simpl; [done|].
    simpl in H. injection H as <- ->. rewrite Hc.
    by rewrite (IH _ _ E).
Qed.

(** A group found at a path is found at each of its prefixes. *)
Lemma group_matches_prefix p1 p2 g :
  group_matches (p1 ++ p2) g ≠ [] → group_matches p1 g ≠ [].
Proof.
  intros H. destruct (group_matches (p1 ++ p2) g) as [|r l] eqn:E; [done|].
  assert (r ∈ group_matches (p1 ++ p2) g) as Hr by (rewrite E; left).
  apply elem_of_group_matches, group_path_app, elem_of_group_matches in Hr.
  intros Hnil. rewrite Hnil in Hr. by apply not_elem_of_nil in Hr.
Qed.

Lemma elem_of_titled t es j :
  j ∈ titled t es ↔ ∃ e, es !! j = Some e ∧ Entry.title e = t.
Proof.
  unfold titled. rewrite list_elem_of_join. split.
  - intros (l & Hj & Hl). apply elem_of_lookup_imap in Hl as (i & e & -> & He).
    case_decide; [|by apply not_elem_of_nil in Hj].
    apply list_elem_of_singleton in Hj as ->. eauto.
  - intros (e & He & Ht). exists [j]. split; [left|].
    apply elem_of_lookup_imap. exists j, e. by rewrite decide_True.
Qed.

(** The entry lookup returns the entries whose path is [path], and all of
    them. *)
Lemma elem_of_entry_matches path e g :
  e ∈ entry_matches path g ↔ entry_path e g = Some path.
Proof.
  unfold entry_matches, entry_path, get_entry. destruct e as [gr j]. simpl.
  destruct (last path) as [t|] eqn:Hlast.
  - apply last_Some in Hlast as [p ->]. rewrite removelast_last.
    rewrite list_elem_of_bind. split.
    + intros (gr' & He & Hgr). apply elem_of_group_matches in Hgr.
      destruct (get_group gr' g) as [h|] eqn:Hh; [|by apply not_elem_of_nil in He].
      apply list_elem_of_fmap in He as (j' & [= -> ->] & Hj).
      apply elem_of_titled in Hj as (x & Hx & Ht).
      by rewrite Hgr, Hh, Hx, Ht.
    + destruct (group_path gr g) as [p'|] eqn:Hp; [|done].
      destruct (get_group gr g) as [h|] eqn:Hh; [|done].
      destruct (Group.entries h !! j) as [x|] eqn:Hx; [|done].
      intros [= H]. apply app_inj_tail in H as [-> Ht].
      exists gr. split; [|by apply elem_of_group_matches].
      rewrite Hh. apply list_elem_of_fmap. exists j. split; [done|].
      apply elem_of_titled. eauto.
  - apply last_None in Hlast as ->. split; [by intros ?%not_elem_of_nil|].
    destruct (group_path gr g) as [p'|]; [|done].
    destruct (get_group gr g) as [h|]; [|done].
    destruct (Group.entries h !! j); [|done].
    intros [= H]. by destruct p'.
Qed.

Lemma entry_path_valid e g path :
  entry_path e g = Some path → is_Some (get_entry e g).
Proof.
  unfold entry_path. destruct (group_path e.1 g); [|done].
  destruct (get_entry e g); [eauto|done].
Qed.

Lemma entry_path_inv e g path :
  entry_path e g = Some path →
  ∃ p x, path = p ++ [Entry.title x] ∧ group_path e.1 g = Some p
         ∧ get_entry e g = Some x.
Proof.
  unfold entry_path. destruct (group_path e.1 g) as [p|]; [|done].
  destruct (get_entry e g) as [x|]; [|done].
  intros [= <-]. eauto.
Qed.

(** An entry found at a path lies below groups found at every proper
    prefix of the path. *)
Lemma entry_found_groups_found path e g k :
  head (entry_matches path g) = Some e → k < length path →
  is_Some (head (group_matches (take k path) g)).
Proof.
  intros He Hk. apply head_Some_elem_of, elem_of_entry_matches in He.
  apply entry_path_inv in He as (p & x & -> & Hp & _).
  rewrite length_app in Hk. simpl in Hk.
  rewrite take_app_le by lia.
  apply head_is_Some.
  apply (group_matches_prefix _ (drop k p)). rewrite take_drop.
  apply elem_of_group_matches in Hp. intros Hnil. rewrite Hnil in Hp.
  by apply not_elem_of_nil in Hp.
Qed.
End tree.

(** ** The tree: updates *)

Section updates.
Implicit Types (g h c : Group.t) (r q : GroupRef) (f : Group.t → Group.t).

Lemma get_group_alter f r g :
  get_group r (alter_group f r g) = f <$> get_group r g.
Proof.
  revert g. induction r as [|i r IH]; intros g; simpl; [done|].
  rewrite list_lookup_alter_eq.
  destruct (Group.subgroups g !! i) as [c|]; simpl; [apply IH|done].
Qed.

Lemma get_group_app r q g :
  get_group (r ++ q) g = get_group r g ≫= get_group q.
Proof.
  revert g. induction r as [|i r IH]; intros g; simpl; [done|].
  destruct (Group.subgroups g !! i) as [c|]; simpl; [apply IH|done].
Qed.

(** What an update at one position leaves in place everywhere: any
    attribute [view] that the update function respects and that does not
    look at the children, provided the update only appends children. *)
Lemma alter_group_view {X} (view : Group.t → X) f r :
  (∀ k h, view (Group.with_subgroups k h) = view h) →
  (∀ h, view (f h) = view h) →
  (∀ h, ∃ extra, Group.subgroups (f h) = Group.subgroups h ++ extra) →
  ∀ q g h, get_group q g = Some h →
    ∃ h', get_group q (alter_group f r g) = Some h' ∧ view h' = view h.
Proof.
  intros Hsub Hf Happ. induction r as [|i r IH]; intros q g h Hq; simpl.
  - destruct q as [|j q]; simpl in *.
    + injection Hq as <-. eauto.
    + destruct (Happ g) as [extra ->].
      destruct (Group.subgroups g !! j) as [c|] eqn:Hc; [|done].
      rewrite (lookup_app_l_Some _ _ _ _ Hc). eauto.
  - destruct q as [|j q]; simpl in *.
    + injection Hq as <-. eauto.
    + destruct (Group.subgroups g !! j) as [c|] eqn:Hc; [|done].
      destruct (decide (i = j)) as [->|Hne].
      * rewrite list_lookup_alter_eq, Hc. simpl. eauto.
      * rewrite list_lookup_alter_ne, Hc by done. eauto.
Qed.

Lemma kept_refl g : kept g g.
Proof. intros r h Hr. eauto. Qed.

Lemma kept_trans g1 g2 g3 : kept g1 g2 → kept g2 g3 → kept g1 g3.
Proof.
  intros H12 H23 r h Hr.
  destruct (H12 _ _ Hr) as (h2 & Hr2 & Hn2 & He2).
  destruct (H23 _ _ Hr2) as (h3 & Hr3 & Hn3 & He3).
  exists h3. split_and!; [done|congruence..].
Qed.

Lemma add_group_kept group_name r g :
  kept g (alter_group (append_group group_name) r g).
Proof.
  intros q h Hq.
  destruct (alter_group_view name_and_entries (append_group group_name) r)
    with (q := q) (g := g) (h := h) as (h' & Hq' & Hv);
    [done|done|intros h0; by eexists|done|].
  exists h'. by injection Hv as -> ->.
Qed.

(** Positions of groups stay valid under updates that only touch the
    entries of a group. *)
Lemma alter_entries_valid (k : list Entry.t → list Entry.t) r q g :
  is_Some (get_group q g) →
  is_Some (get_group q (alter_group (Group.with_entries k) r g)).
Proof.
  intros [h Hq].
  destruct (alter_group_view Group.name (Group.with_entries k) r)
    with (q := q) (g := g) (h := h) as (h' & Hq' & Hv);
    [done|done|intros h0; exists []; by rewrite app_nil_r|done|].
  eauto.
Qed.

Lemma add_group_valid group_name r g d :
  get_group r g = Some d →
  get_group (r ++ [length (Group.subgroups d)])
            (alter_group (append_group group_name) r g)
  = Some (Group.fresh group_name).
Proof.
  intros Hr. rewrite get_group_app, get_group_alter, Hr. simpl.
  by rewrite list_lookup_middle.
Qed.

Lemma get_entry_alter_group (k : list Entry.t → list Entry.t) r j g :
  get_entry (r, j) (alter_group (Group.with_entries k) r g)
  = get_group r g ≫= λ d, k (Group.entries d) !! j.
Proof.
  unfold get_entry. simpl. rewrite get_group_alter.
  by destruct (get_group r g).
Qed.

Lemma get_entry_alter_entry (k : Entry.t → Entry.t) e g :
  get_entry e (alter_entry k e g) = k <$> get_entry e g.
Proof.
  destruct e as [r j]. unfold alter_entry. simpl.
  rewrite get_entry_alter_group. unfold get_entry. simpl.
  destruct (get_group r g); simpl; [|done].
  apply list_lookup_alter_eq.
Qed.
End updates.

Section reflection.
Implicit Types (g h c : Group.t) (r q : GroupRef).

Lemma alter_group_name f r g :
  (∀ h, Group.name (f h) = Group.name h) →
  Group.name (alter_group f r g) = Group.name g.
Proof. intros Hf. destruct r; simpl; [apply Hf|done]. Qed.

(** A new group brings no entry: a group of the updated tree that holds
    entries was there before, under the same path, with these entries. *)
Lemma add_group_reflects_groups group_name r :
  ∀ q g p h',
    group_path q (alter_group (append_group group_name) r g) = Some p →
    get_group q (alter_group (append_group group_name) r g) = Some h' →
    Group.entries h' ≠ [] →
    group_path q g = Some p
    ∧ ∃ h, get_group q g = Some h ∧ Group.entries h = Group.entries h'.
Proof.
  induction r as [|d r IH]; intros q g p h'; simpl.
  - destruct q as [|i q]; simpl.
    + intros [= <-] [= <-] _. eauto.
    + destruct (Group.subgroups g !! i) as [c|] eqn:Hc.
      * rewrite (lookup_app_l_Some _ _ _ _ Hc). eauto.
      * apply lookup_ge_None in Hc.
        rewrite lookup_app_r by done.
        destruct (i - length (Group.subgroups g)) as [|n]; simpl; [|done].
        intros _ Hq Hne. destruct q as [|j q]; simpl in Hq; [|done].
        by injection Hq as <-.
  - destruct q as [|i q]; simpl.
    + intros [= <-] [= <-] _. eauto.
    + destruct (decide (d = i)) as [->|Hne].
      * rewrite list_lookup_alter_eq.
        destruct (Group.subgroups g !! i) as [c|] eqn:Hc; simpl; [|done].
        rewrite alter_group_name by done.
        destruct (group_path q (alter_group _ r c)) as [p'|] eqn:Hp;
          simpl; [|done].
        intros [= <-] Hq Hent.
        destruct (IH _ _ _ _ Hp Hq Hent) as (-> & h & -> & He). eauto.
      * rewrite list_lookup_alter_ne by done. eauto.
Qed.

Lemma reflects_refl g : reflects g g.
Proof. by intros e path. Qed.

Lemma reflects_trans g1 g2 g3 :
  reflects g1 g2 → reflects g2 g3 → reflects g1 g3.
Proof. intros H12 H23 e path H. eauto. Qed.

Lemma add_group_reflects group_name r g :
  reflects g (alter_group (append_group group_name) r g).
Proof.
  intros [q j] path. unfold entry_path, get_entry. simpl.
  destruct (group_path q (alter_group _ r g)) as [p|] eqn:Hp; [|done].
  destruct (get_group q (alter_group _ r g)) as [h'|] eqn:Hq; [|done].
  destruct (Group.entries h' !! j) as [x|] eqn:Hx; [|done].
  intros [= <-].
  destruct (add_group_reflects_groups _ _ _ _ _ _ Hp Hq)
    as (-> & h & -> & ->); [|by rewrite Hx].
  intros Hnil. by rewrite Hnil in Hx.
Qed.

(** Lookups see through [reflects]: an entry found in the new tree was
    findable in the old one. *)
Lemma reflects_entry_matches old new path e :
  reflects old new →
  e ∈ entry_matches path new → e ∈ entry_matches path old.
Proof.
  intros Href He. apply elem_of_entry_matches.
  by apply Href, elem_of_entry_matches.
Qed.
End reflection.

(** ** Running the primitives *)

Lemma logged_refl db : logged db db [].
Proof. unfold logged. by rewrite app_nil_r. Qed.

Lemma logged_trans db1 db2 db3 evs1 evs2 :
  logged db1 db2 evs1 → logged db2 db3 evs2 → logged db1 db3 (evs1 ++ evs2).
Proof. unfold logged. intros H1 H2. by rewrite H2, H1, app_assoc. Qed.

Section runs.
Context {A B : Type}.

Lemma bind_run (m : M A) (f : A → M B) db :
  (m ≫= f) db
  = match m db with
    | (Return a, db') => f a db'
    | (Raise e, db') => (Raise e, db')
    end.
Proof. reflexivity. Qed.

Lemma bind_return (m : M A) (f : A → M B) db a db' :
  m db = (Return a, db') → (m ≫= f) db = f a db'.
Proof. intros H. by rewrite bind_run, H. Qed.

Lemma bind_raise (m : M A) (f : A → M B) db e db' :
  m db = (Raise e, db') → (m ≫= f) db = (Raise e, db').
Proof. intros H. by rewrite bind_run, H. Qed.
End runs.

Lemma find_groups_run path db :
  find_groups path db
  = (Return (head (group_matches path (root_group db))),
     mkdb (root_group db) (calls db ++ [find_groups_call path])).
Proof. reflexivity. Qed.

Lemma find_entries_by_path_run path db :
  find_entries_by_path path db
  = (Return (head (entry_matches path (root_group db))),
     mkdb (root_group db) (calls db ++ [find_entries_by_path_call path])).
Proof. reflexivity. Qed.

Lemma add_group_run dest group_name db d :
  get_group dest (root_group db) = Some d →
  add_group dest group_name db
  = (Return (dest ++ [length (Group.subgroups d)]),
     mkdb (alter_group (append_group group_name) dest (root_group db))
          (calls db ++ [add_group_call dest group_name])).
Proof.
  intros H. unfold add_group. rewrite bind_run. simpl.
  rewrite bind_run. simpl. rewrite bind_run. simpl. by rewrite H.
Qed.

Lemma save_run db_path db :
  save db_path db
  = (Return tt, mkdb (root_group db) (calls db ++ [save_call db_path])).
Proof. reflexivity. Qed.

Lemma read_entry_run entry db x :
  get_entry entry (root_group db) = Some x →
  read_entry entry db = (Return x, db).
Proof. intros H. unfold read_entry. rewrite bind_run. simpl. by rewrite H. Qed.

Lemma delete_entry_run entry db x :
  get_entry entry (root_group db) = Some x →
  delete_entry entry db
  = (Return tt,
     mkdb (alter_group (Group.with_entries (delete entry.2)) entry.1
             (root_group db))
          (calls db ++ [delete_entry_call entry])).
Proof.
  intros H. unfold delete_entry. rewrite bind_run. simpl.
  rewrite bind_run. simpl. rewrite bind_run. simpl. by rewrite H.
Qed.

(** ** The group walk *)

Lemma from_option_run {A} e (o : option A) db :
  from_option e o db
  = match o with
    | Some a => (Return a, db)
    | None => (Raise e, db)
    end.
Proof. by destruct o. Qed.

(** When every group on the way exists the walk only looks groups up and
    ends on the group of the path without its last segment. *)
Lemma materialize_existing path :
  ∀ items walked parent_group db,
    path = walked ++ items →
    (∀ k, (length walked < k < length path)%nat →
          is_Some (head (group_matches (take k path) (root_group db)))) →
    ∃ evs,
      materialize_groups path items walked parent_group (length walked) db
      = (Return (if decide (length items ≤ 1)%nat then parent_group
                 else head (group_matches (removelast path) (root_group db))),
         mkdb (root_group db) (calls db ++ evs))
      ∧ forallb is_lookup evs = true.
Proof.
  induction items as [|item rest IH]; intros walked parent_group db Hpath Hex.
  - exists []. simpl. rewrite app_nil_r. by destruct db.
  - simpl. rewrite bind_run, from_option_run, index_last.
    assert (last path = last (item :: rest)) as Hlast.
    { rewrite Hpath, last_app.
      destruct (last (item :: rest)) eqn:E; [done|]. by apply last_None in E. }
    rewrite Hlast.
    destruct rest as [|x rest].
    + simpl. rewrite bool_decide_eq_true_2 by done.
      rewrite bool_decide_eq_true_2
        by (rewrite Hpath, length_app; simpl; lia).
      simpl. exists []. rewrite app_nil_r. by destruct db.
    + destruct (last (item :: x :: rest)) as [final|] eqn:Hfinal;
        [|by apply last_None in Hfinal].
      rewrite (bool_decide_eq_false_2 (Z.of_nat _ = _))
        by (rewrite Hpath, length_app; simpl; lia).
      rewrite andb_false_r.
      rewrite bind_run, find_groups_run.
      assert (take (S (length walked)) path = walked ++ [item]) as Htake.
      { rewrite Hpath. rewrite take_app_ge by lia.
        replace (S (length walked) - length walked) with 1 by lia. done. }
      destruct (Hex (S (length walked))) as [gref Hg].
      { rewrite Hpath, length_app. simpl. lia. }
      rewrite Htake in Hg. rewrite Hg. rewrite bind_run. simpl.
      destruct (IH (walked ++ [item]) (Some gref)
                   (mkdb (root_group db)
                         (calls db ++ [find_groups_call (walked ++ [item])])))
        as (evs & Hrun & Hevs).
      { by rewrite <- app_assoc. }
      { simpl. intros k Hk. apply Hex. rewrite length_app in Hk. simpl in Hk. lia. }
      rewrite length_app in Hrun. simpl in Hrun.
      replace (length walked + 1) with (S (length walked)) in Hrun by lia.
      rewrite Hrun. simpl.
      exists (find_groups_call (walked ++ [item]) :: evs). split; [|done].
      rewrite <- app_assoc. simpl. f_equal. f_equal.
      destruct rest as [|y rest]; simpl; [|done].
      rewrite <- Hg. f_equal. rewrite Hpath.
      replace (walked ++ [item; x]) with ((walked ++ [item]) ++ [x])
        by (by rewrite <- app_assoc).
      by rewrite removelast_last.
Qed.

(** Any run of the walk: it only looks groups up and adds groups, every
    group of the tree stays where it was, no entry appears, and the parent
    it ends on is a group of the resulting tree. *)
Lemma materialize_groups_spec path :
  ∀ items walked parent_group i db,
    valid_parent parent_group (root_group db) →
    ∃ o db' evs,
      materialize_groups path items walked parent_group i db = (o, db')
      ∧ logged db db' evs
      ∧ forallb is_walk_call evs = true
      ∧ kept (root_group db) (root_group db')
      ∧ reflects (root_group db) (root_group db')
      ∧ match o with
        | Return p => valid_parent p (root_group db')
        | Raise e => e = IndexError
        end.
Proof.
  induction items as [|item rest IH]; intros walked parent_group i db Hvalid.
  - exists (Return parent_group), db, []. simpl.
    split_and!; auto using logged_refl, kept_refl, reflects_refl.
  - simpl. rewrite bind_run, from_option_run.
    destruct (Py.index path _) as [final|].
    2:{ exists (Raise IndexError), db, [].
        split_and!; auto using logged_refl, kept_refl, reflects_refl. }
    destruct (_ && _).
    { exists (Return parent_group), db, [].
      split_and!; auto using logged_refl, kept_refl, reflects_refl. }
    rewrite bind_run, find_groups_run.
    set (db1 := mkdb (root_group db)
                     (calls db ++ [find_groups_call (walked ++ [item])])).
    destruct (head (group_matches (walked ++ [item]) (root_group db)))
      as [gref|] eqn:Hfind.
    + rewrite bind_run. simpl.
      destruct (IH (walked ++ [item]) (Some gref) (S i) db1)
        as (o & db' & evs & Hrun & Hlog & Hevs & Hkept & Hrefl & Ho).
      { intros r [= <-]. simpl.
        apply head_Some_elem_of, elem_of_group_matches in Hfind.
        by eapply group_path_valid. }
      exists o, db', (find_groups_call (walked ++ [item]) :: evs).
      split_and!; try done.
      unfold logged in *. rewrite Hlog. simpl. by rewrite <- app_assoc.
    + rewrite bind_run.
      assert (is_Some (get_group (default root_group_ref parent_group)
                                 (root_group db1))) as [d Hd].
      { destruct parent_group as [r|]; simpl; [by apply Hvalid|eauto]. }
      rewrite (add_group_run _ _ _ _ Hd).
      set (db2 := mkdb _ _).
      destruct (IH (walked ++ [item])
                   (Some (default root_group_ref parent_group
                          ++ [length (Group.subgroups d)]))
                   (S i) db2)
        as (o & db' & evs & Hrun & Hlog & Hevs & Hkept & Hrefl & Ho).
      { intros r [= <-]. simpl. erewrite add_group_valid; eauto. }
      exists o, db',
        (find_groups_call (walked ++ [item])
         :: add_group_call (default root_group_ref parent_group) item :: evs).
      split_and!; try done.
      * unfold logged in *. rewrite Hlog. simpl.
        by rewrite <- !app_assoc.
      * eapply kept_trans; [|exact Hkept]. apply add_group_kept.
      * eapply reflects_trans; [|exact Hrefl]. apply add_group_reflects.
Qed.

(** ** The branches of the writer *)

Lemma convert_run path entry changed db key x :
  last path = Some key →
  get_entry entry (root_group db) = Some x →
  _convert_secret_to_dic path entry changed db
  = (Return (Some {[ key := secret_values x ]}, changed), db).
Proof.
  intros Hkey Hx. unfold _convert_secret_to_dic.
  rewrite bind_run, from_option_run, index_minus_one, Hkey.
  rewrite bind_run, (read_entry_run _ _ _ Hx). done.
Qed.

Lemma convert_empty_path entry changed db :
  _convert_secret_to_dic [] entry changed db = (Raise IndexError, db).
Proof. reflexivity. Qed.

Lemma add_entry_run r title username password url force_creation db d :
  get_group r (root_group db) = Some d →
  add_entry (Some r) title username password url force_creation db
  = if clashes title username (Group.entries d) && negb force_creation
    then (Raise (Exception "entry already exists"),
          mkdb (root_group db) (calls db ++ [add_entry_call (Some r) title]))
    else (Return (r, length (Group.entries d)),
          mkdb (alter_group
                  (append_entry (new_entry title username password url))
                  r (root_group db))
               (calls db ++ [add_entry_call (Some r) title])).
Proof.
  intros H. unfold add_entry. rewrite bind_run. simpl.
  rewrite bind_run. simpl. rewrite bind_run. simpl. rewrite H. simpl.
  by destruct (_ && _).
Qed.

Lemma add_entry_none title username password url force_creation db :
  add_entry None title username password url force_creation db
  = (Raise AttributeError,
     mkdb (root_group db) (calls db ++ [add_entry_call None title])).
Proof. reflexivity. Qed.

Lemma add_entry_valid x r g d :
  get_group r g = Some d →
  get_entry (r, length (Group.entries d)) (alter_group (append_entry x) r g)
  = Some x.
Proof.
  intros Hd. unfold append_entry. rewrite get_entry_alter_group, Hd. simpl.
  by rewrite list_lookup_middle.
Qed.

Lemma set_custom_properties_run entry items :
  ∀ db x,
    get_entry entry (root_group db) = Some x →
    ∃ g', set_custom_properties entry items db = (Return tt, mkdb g' (calls db))
          ∧ get_entry entry g' = Some (set_all items x).
Proof.
  induction items as [|[k v] items IH]; intros db x Hx; simpl.
  - exists (root_group db). by destruct db.
  - rewrite bind_run. unfold set_custom_property at 1.
    rewrite bind_run. simpl. rewrite bind_run, Hx. simpl.
    set (db1 := mkdb _ _).
    destruct (IH db1 (Entry.set_custom_property k v x)) as (g' & Hrun & Hg').
    { simpl. by rewrite get_entry_alter_entry, Hx. }
    exists g'. by rewrite Hrun.
Qed.

Lemma set_all_title items : ∀ x, Entry.title (set_all items x) = Entry.title x.
Proof.
  induction items as [|[k v] items IH]; intros x; simpl; [done|].
  by rewrite IH.
Qed.

Lemma attaches_not_none custom_properties :
  attaches (λ entry,
    match custom_properties with
    | Some d => set_custom_properties entry (map_to_list d)
    | None => mret tt
    end).
Proof.
  intros entry db x Hx. destruct custom_properties as [d|].
  - destruct (set_custom_properties_run entry (map_to_list d) db x Hx)
      as (g' & ? & ?). eauto using set_all_title.
  - exists (root_group db), x. by destruct db.
Qed.

Lemma attaches_truthy custom_properties :
  attaches (λ entry,
    match custom_properties with
    | Some d =>
        if dict_truthy d then set_custom_properties entry (map_to_list d)
        else mret tt
    | None => mret tt
    end).
Proof.
  intros entry db x Hx. destruct custom_properties as [d|].
  - destruct (dict_truthy d).
    + destruct (set_custom_properties_run entry (map_to_list d) db x Hx)
        as (g' & ? & ?). eauto using set_all_title.
    + exists (root_group db), x. by destruct db.
  - exists (root_group db), x. by destruct db.
Qed.

Lemma creation_tail_run path db_path dest title username password url
    force_creation step key db :
  attaches step →
  last path = Some key →
  valid_parent dest (root_group db) →
  let '(o, db') :=
    creation_tail path db_path dest title username password url
      force_creation step db in
  match o with
  | Return (secret, changed) =>
      changed = true
      ∧ calls db' = calls db ++ [add_entry_call dest title; save_call db_path]
      ∧ ∃ r d x,
          dest = Some r
          ∧ get_group r (root_group db) = Some d
          ∧ get_entry (r, length (Group.entries d)) (root_group db') = Some x
          ∧ Entry.title x = title
          ∧ secret = Some {[ key := secret_values x ]}
  | Raise e =>
      calls db' = calls db ++ [add_entry_call dest title]
      ∧ root_group db' = root_group db
      ∧ (e = AttributeError ∧ dest = None
         ∨ e = Exception "entry already exists" ∧ force_creation = false)
  end.
Proof.
  intros Hstep Hkey Hvalid. unfold creation_tail. rewrite bind_run.
  destruct dest as [r|].
  2:{ rewrite add_entry_none. simpl. eauto. }
  destruct (Hvalid r eq_refl) as [d Hd].
  rewrite (add_entry_run _ _ _ _ _ _ _ _ Hd).
  destruct (_ && _) eqn:Hclash.
  { simpl. split_and!; [done|done|]. right. split; [done|].
    apply andb_true_iff in Hclash as [_ Hf]. by destruct force_creation. }
  set (db1 := mkdb _ _).
  destruct (Hstep (r, length (Group.entries d)) db1
                  (new_entry title username password url))
    as (g' & x' & Hrun & Hx' & Htitle).
  { simpl. by apply add_entry_valid. }
  rewrite bind_run, Hrun. rewrite bind_run, save_run.
  erewrite convert_run; [|done|simpl; exact Hx'].
  simpl. split_and!; [done|by rewrite <- app_assoc|].
  exists r, d, x'. by split_and!.
Qed.

(** ** Persistence discipline *)

Lemma forallb_weaken {A} (f g : A → bool) l :
  (∀ x, f x = true → g x = true) → forallb f l = true → forallb g l = true.
Proof.
  intros Hfg. rewrite !forallb_forall. eauto.
Qed.

Lemma walk_call_not_save c : is_walk_call c = true → not_save c = true.
Proof. by destruct c. Qed.

Lemma lookup_not_save c : is_lookup c = true → not_save c = true.
Proof. by destruct c. Qed.

(** A creating tail that starts after calls [before] none of which is a
    save. *)
Lemma creation_tail_disciplined path db_path dest title username password url
    force_creation step key db0 db before :
  attaches step →
  last path = Some key →
  valid_parent dest (root_group db) →
  logged db0 db before →
  forallb not_save before = true →
  disciplined db_path db0
    (creation_tail path db_path dest title username password url
       force_creation step db).
Proof.
  intros Hstep Hkey Hvalid Hlog Hbefore.
  pose proof (creation_tail_run path db_path dest title username password url
                force_creation step key db Hstep Hkey Hvalid) as Hrun.
  destruct (creation_tail _ _ _ _ _ _ _ _ _ db) as [[[secret changed]|e] db'].
  - destruct Hrun as (-> & Hcalls & _).
    exists (before ++ [add_entry_call dest title; save_call db_path]).
    split.
    + unfold logged in *. simpl. by rewrite Hcalls, Hlog, <- app_assoc.
    + simpl. exists (before ++ [add_entry_call dest title]).
      split_and!.
      * by rewrite <- app_assoc.
      * by rewrite forallb_app, Hbefore.
      * rewrite existsb_app. simpl. by rewrite orb_true_r.
  - destruct Hrun as (Hcalls & _ & He).
    exists (before ++ [add_entry_call dest title]). split.
    + unfold logged in *. simpl. by rewrite Hcalls, Hlog, <- app_assoc.
    + simpl. rewrite forallb_app, Hbefore.
      by destruct He as [[-> _] | [-> _]].
Qed.

Lemma entry_matches_valid path e g :
  head (entry_matches path g) = Some e →
  (∃ x, get_entry e g = Some x) ∧ ∃ key, last path = Some key.
Proof.
  intros He. apply head_Some_elem_of, elem_of_entry_matches in He.
  destruct (entry_path_inv _ _ _ He) as (p & x & -> & _ & Hx).
  split; [eauto|]. rewrite last_snoc. eauto.
Qed.

Lemma secret_write_root_disciplined path db_path username password url
    custom_properties force db :
  disciplined db_path db
    (secret_write_root path db_path username password url custom_properties
       force db).
Proof.
  unfold secret_write_root. rewrite bind_run, find_entries_by_path_run.
  set (db1 := mkdb _ _).
  assert (logged db db1 [find_entries_by_path_call path]) as Hlog1 by done.
  destruct (head (entry_matches path (root_group db))) as [e|] eqn:He.
  - destruct (entry_matches_valid _ _ _ He) as ([x Hx] & key & Hkey).
    destruct force; simpl.
    + rewrite bind_run, (delete_entry_run e db1 x Hx).
      set (db2 := mkdb _ _).
      rewrite bind_run, from_option_run, index_last, Hkey.
      apply (creation_tail_disciplined path db_path (Some root_group_ref) key
               username password url true _ key db db2
               [find_entries_by_path_call path; delete_entry_call e]);
        [apply attaches_not_none|done|
        |unfold logged; simpl; by rewrite <- app_assoc|done].
      intros r [= <-]. simpl. eauto.
    + rewrite (convert_run _ _ _ db1 key x Hkey Hx).
      exists [find_entries_by_path_call path]. by split.
  - rewrite bind_run, from_option_run, index_last.
    destruct (last path) as [key|] eqn:Hkey.
    + apply (creation_tail_disciplined path db_path (Some root_group_ref) key
               username password url true _ key db db1
               [find_entries_by_path_call path]);
        [apply attaches_truthy|done| |done|done].
      intros r [= <-]. simpl. eauto.
    + exists [find_entries_by_path_call path]. by split.
Qed.

Lemma head_last_Some {A} (l : list A) a :
  head l = Some a → ∃ key, last l = Some key.
Proof.
  intros H. destruct (last l) as [key|] eqn:E; [eauto|].
  apply last_None in E. by subst l.
Qed.

Lemma found_parent_valid path g :
  valid_parent (head (group_matches path g)) g.
Proof.
  intros r Hr. apply head_Some_elem_of, elem_of_group_matches in Hr.
  by eapply group_path_valid.
Qed.

(** When the entry is there, the walk before the lookup changes nothing. *)
Lemma materialize_entry_found path e db :
  head (entry_matches path (root_group db)) = Some e →
  ∃ evs parent_group,
    materialize_groups path path [] None 0 db
    = (Return parent_group, mkdb (root_group db) (calls db ++ evs))
    ∧ forallb is_lookup evs = true
    ∧ valid_parent parent_group (root_group db).
Proof.
  intros He.
  destruct (materialize_existing path path [] None db) as (evs & Hrun & Hevs).
  - done.
  - intros k [_ Hk]. by eapply entry_found_groups_found.
  - simpl in Hrun. eexists evs, _. split_and!; [exact Hrun|done|].
    case_decide; [by intros r|apply found_parent_valid].
Qed.

Lemma secret_write_groups_disciplined path db_path username password url
    custom_properties force db :
  disciplined db_path db
    (secret_write_groups path db_path username password url
       custom_properties force db).
Proof.
  unfold secret_write_groups. rewrite bind_run.
  destruct (head (entry_matches path (root_group db))) as [e|] eqn:He.
  - destruct (materialize_entry_found _ _ _ He)
      as (evs & parent_group & -> & Hevs & Hvalid).
    rewrite bind_run, find_entries_by_path_run. simpl. rewrite He.
    set (db1 := mkdb _ _).
    assert (logged db db1 (evs ++ [find_entries_by_path_call path])) as Hlog1.
    { unfold logged. simpl. by rewrite app_assoc. }
    destruct (entry_matches_valid _ _ _ He) as ([x Hx] & key & Hkey).
    destruct force; simpl.
    + rewrite bind_run, (delete_entry_run e db1 x Hx).
      set (db2 := mkdb _ _).
      rewrite bind_run, from_option_run, index_zero.
      destruct (head path) as [title|] eqn:Htitle.
      2:{ apply head_None in Htitle. by subst path. }
      apply (creation_tail_disciplined path db_path parent_group title
               username password url false _ key db db2
               ((evs ++ [find_entries_by_path_call path])
                ++ [delete_entry_call e]));
        [apply attaches_truthy|done| | |].
      * intros r Hr. simpl. apply alter_entries_valid. by apply Hvalid.
      * unfold logged in *. simpl. by rewrite <- !app_assoc.
      * rewrite !forallb_app. simpl.
        by rewrite (forallb_weaken _ _ _ lookup_not_save Hevs).
    + rewrite (convert_run _ _ _ db1 key x Hkey Hx).
      exists (evs ++ [find_entries_by_path_call path]). split; [done|].
      simpl. split; [|done]. by rewrite forallb_app, Hevs.
  - destruct (materialize_groups_spec path path [] None 0 db)
      as (o & db' & evs & -> & Hlog & Hevs & _ & Hrefl & Ho); [by intros r|].
    apply (forallb_weaken _ _ _ walk_call_not_save) in Hevs.
    destruct o as [parent_group|err].
    2:{ exists evs. simpl. by subst err. }
    rewrite bind_run, find_entries_by_path_run.
    set (db1 := mkdb _ _).
    assert (logged db db1 (evs ++ [find_entries_by_path_call path])) as Hlog1.
    { unfold logged in *. simpl. by rewrite Hlog, <- app_assoc. }
    assert (forallb not_save (evs ++ [find_entries_by_path_call path]) = true)
      as Hevs1 by (by rewrite forallb_app, Hevs).
    destruct (head (entry_matches path (root_group db'))) as [e|] eqn:He'.
    { apply head_Some_elem_of in He'.
      apply (reflects_entry_matches _ _ _ _ Hrefl) in He'.
      apply head_None in He. rewrite He in He'.
      by apply not_elem_of_nil in He'. }
    rewrite bind_run, from_option_run, index_zero.
    destruct (head path) as [title|] eqn:Htitle.
    2:{ exists (evs ++ [find_entries_by_path_call path]). by split. }
    destruct (head_last_Some _ _ Htitle) as [key Hkey].
    by apply (creation_tail_disciplined path db_path parent_group title
                username password url false _ key db db1
                (evs ++ [find_entries_by_path_call path]));
      [apply attaches_truthy|..].
Qed.

Lemma secret_write_disciplined secret_path db_path username password
    url custom_properties force db :
  disciplined db_path db
    (secret_write secret_path db_path username password url custom_properties
       force db).
Proof.
  unfold secret_write.
  destruct secret_path as [s|].
  2:{ exists []. split; [apply logged_refl|done]. }
  destruct (_ || _).
  { exists []. split; [apply logged_refl|done]. }
  simpl. destruct (_ <? _)%nat.
  - apply secret_write_groups_disciplined.
  - destruct (_ =? _)%nat.
    + apply secret_write_root_disciplined.
    + exists []. split; [apply logged_refl|done].
Qed.

(** The writer never trips over a group or entry object that is not in the
    tree: its exceptions are Python's. *)
Lemma secret_write_never_stale secret_path db_path username password url
    custom_properties force db :
  (secret_write secret_path db_path username password url custom_properties
     force db).1 ≠ Raise StaleReference.
Proof.
  destruct (secret_write_disciplined secret_path db_path username password url
              custom_properties force db) as (evs & _ & Hrun).
  destruct (secret_write _ _ _ _ _ _ _ db) as [[[secret [|]]|e] db'];
    simpl in *; [done|done|].
  destruct Hrun as [_ He]. congruence.
Qed.

(** ** No-clobber *)

Lemma not_blank_inv s :
  is_blank (Some s) = false → String.eqb s "" || Py.isspace s = false.
Proof. done. Qed.

Lemma not_blank_nonempty s : is_blank (Some s) = false → s ≠ "".
Proof.
  simpl. intros H ->. by rewrite String.eqb_refl in H.
Qed.

(** For a path that is not blank the writer takes one of its two branches,
    in both on the segments of the path. *)
Lemma secret_write_segments s db_path username password url
    custom_properties force :
  is_blank (Some s) = false →
  secret_write (Some s) db_path username password url custom_properties force
  = if (1 <? length (Py.split "/" s))%nat
    then secret_write_groups (segments s) db_path username password url
           custom_properties force
    else secret_write_root (segments s) db_path username password url
           custom_properties force.
Proof.
  intros Hb. unfold secret_write. rewrite (not_blank_inv _ Hb). simpl.
  destruct (1 <? length (Py.split "/" s))%nat eqn:Hlen; [done|].
  apply Nat.ltb_ge in Hlen. pose proof (split_length_pos "/" s).
  assert (length (Py.split "/" s) = 1) as H1 by lia.
  rewrite H1. simpl. unfold segments.
  by rewrite <- (compact_split_single s (not_blank_nonempty _ Hb) H1).
Qed.

(** C5.  No-clobber: when the store holds an entry at the segments of the
    path (the one the lookup returns), a write with [force = False] returns
    that entry's values under the last segment with [changed = False], makes
    lookups only (no [save], no creation, no deletion) and leaves the tree
    exactly as it was. *)
Theorem secret_write_no_clobber s db_path username password url
    custom_properties db e :
  is_blank (Some s) = false →
  head (entry_matches (segments s) (root_group db)) = Some e →
  ∃ x key evs,
    get_entry e (root_group db) = Some x
    ∧ last (segments s) = Some key
    ∧ secret_write (Some s) db_path username password url custom_properties
        false db
      = (Return (Some {[ key := secret_values x ]}, false),
         mkdb (root_group db) (calls db ++ evs))
    ∧ forallb is_lookup evs = true.
Proof.
  intros Hb He. rewrite (secret_write_segments _ _ _ _ _ _ _ Hb).
  destruct (entry_matches_valid _ _ _ He) as ([x Hx] & key & Hkey).
  exists x, key.
  destruct (1 <? length (Py.split "/" s))%nat.
  - unfold secret_write_groups. rewrite bind_run.
    destruct (materialize_entry_found _ _ _ He)
      as (evs & parent_group & -> & Hevs & _).
    rewrite bind_run, find_entries_by_path_run. simpl. rewrite He. simpl.
    erewrite convert_run; [|done|done].
    exists (evs ++ [find_entries_by_path_call (segments s)]).
    split_and!; [done|done| |by rewrite forallb_app, Hevs].
    simpl. by rewrite <- app_assoc.
  - unfold secret_write_root.
    rewrite bind_run, find_entries_by_path_run. simpl. rewrite He. simpl.
    erewrite convert_run; [|done|done].
    by exists [find_entries_by_path_call (segments s)].
Qed.

(** ** Idempotent materialization *)

Lemma groups_exist_spec path g k :
  groups_exist path g = true → (0 < k < length path)%nat →
  is_Some (head (group_matches (take k path) g)).
Proof.
  unfold groups_exist. rewrite forallb_forall. intros H Hk.
  specialize (H k). destruct (head _); [eauto|].
  discriminate H. apply in_seq. lia.
Qed.

(** C7.  Idempotent materialization: on a nested path (two segments or
    more) whose intermediate groups all exist, the walk of [secret_write]
    only looks groups up, leaves the tree as it is and ends with
    [parent_group] on the group found at the path without its last segment;
    and in any run of the walk, from any store and on any path, every group
    of the store is afterwards still at its position under its name, with
    its entries. *)
Theorem materialize_groups_idempotent path db :
  (2 ≤ length path)%nat →
  groups_exist path (root_group db) = true →
  (∃ deepest evs,
      head (group_matches (removelast path) (root_group db)) = Some deepest
      ∧ materialize_groups path path [] None 0 db
        = (Return (Some deepest), mkdb (root_group db) (calls db ++ evs))
      ∧ forallb is_lookup evs = true
      ∧ existsb is_add_group evs = false)
  ∧ (∀ path' db',
       kept (root_group db')
            (root_group (materialize_groups path' path' [] None 0 db').2)).
Proof.
  intros Hlen Hex. split.
  - destruct (materialize_existing path path [] None db) as (evs & Hrun & Hevs).
    + done.
    + intros k Hk. by apply groups_exist_spec.
    + simpl in Hrun. rewrite decide_False in Hrun by lia.
      destruct (groups_exist_spec path _ (length path - 1) Hex)
        as [deepest Hd]; [lia|].
      assert (take (length path - 1) path = removelast path) as Htake.
      { destruct path as [|s path] using rev_ind; [simpl in Hlen; lia|].
        rewrite removelast_last, length_app. simpl.
        replace (length path + 1 - 1) with (length path) by lia.
        by rewrite take_app_length. }
      rewrite Htake in Hd. rewrite Hd in Hrun.
      exists deepest, evs. split_and!; try done.
      clear -Hevs. induction evs as [|c evs IH]; [done|].
      simpl in *. apply andb_true_iff in Hevs as [Hc Hevs].
      rewrite (IH Hevs). by destruct c.
  - intros path' db'.
    destruct (materialize_groups_spec path' path' [] None 0 db')
      as (o & db1 & evs & -> & _ & _ & Hkept & _); [by intros r|].
    done.
Qed.

(** ** Group bulk read *)

Lemma read_entry_path_run entry db p :
  entry_path entry (root_group db) = Some p →
  read_entry_path entry db = (Return p, db).
Proof.
  intros H. unfold read_entry_path. rewrite bind_run. simpl. by rewrite H.
Qed.

Lemma group_to_dic_loop_run entries :
  ∀ group_secrets db,
    Forall (λ e, is_Some (entry_path e (root_group db))) entries →
    group_to_dic_loop entries group_secrets db
    = (Return (group_secrets
               ++ omap (reresolved_record (root_group db)) entries),
       mkdb (root_group db)
            (calls db ++ (reresolution_call (root_group db) <$> entries))).
Proof.
  induction entries as [|entry rest IH]; intros group_secrets db Hvalid.
  - simpl. rewrite !app_nil_r. by destruct db.
  - apply Forall_cons in Hvalid as [[p Hp] Hrest]. simpl.
    rewrite bind_run, (read_entry_path_run _ _ _ Hp).
    rewrite bind_run, find_entries_by_path_run.
    set (db1 := mkdb _ _).
    unfold reresolved_record at 1. unfold reresolution_call at 1.
    rewrite Hp. simpl.
    destruct (head (entry_matches p (root_group db))) as [found|] eqn:Hfound;
      simpl.
    + pose proof Hfound as Hfp.
      apply head_Some_elem_of, elem_of_entry_matches in Hfp.
      destruct (entry_path_inv _ _ _ Hfp) as (q & x & -> & _ & Hx).
      rewrite bind_run, (read_entry_path_run found db1 _ Hfp).
      rewrite bind_run, from_option_run, index_minus_one, last_snoc.
      rewrite bind_run, (read_entry_run found db1 x Hx). rewrite Hx. simpl.
      rewrite (IH _ db1 Hrest). simpl. by rewrite <- !app_assoc.
    + rewrite (IH _ db1 Hrest). simpl. by rewrite <- !app_assoc.
Qed.

Lemma group_entries_valid group g d :
  get_group group g = Some d →
  Forall (λ e, is_Some (entry_path e g))
         (pair group <$> seq 0 (length (Group.entries d))).
Proof.
  intros Hd. apply Forall_fmap, Forall_forall. intros j Hj.
  apply elem_of_seq in Hj as [_ Hj]. simpl in Hj.
  apply lookup_lt_is_Some in Hj as [x Hx].
  unfold entry_path, get_entry. simpl.
  destruct (get_group_path _ _ _ Hd) as [p ->]. rewrite Hd, Hx. eauto.
Qed.


Lemma group_to_dic_run s db :
  is_blank (Some s) = false →
  group_to_dic (Some s) db
  = (Return (group_records (segments s) (root_group db)),
     mkdb (root_group db)
          (calls db ++ group_lookups (segments s) (root_group db))).
Proof.
  intros Hb.
  unfold group_to_dic. rewrite (not_blank_inv _ Hb).
  pose proof (split_length_pos "/" s) as Hlen.
  apply Nat.ltb_lt in Hlen. rewrite Hlen. simpl. fold (segments s).
  rewrite bind_run, find_groups_run. unfold group_records, group_lookups.
  set (db1 := mkdb _ _).
  destruct (head (group_matches (segments s) (root_group db)))
    as [group|] eqn:Hg; [|done].
  destruct (found_parent_valid _ _ _ Hg) as [d Hd].
  rewrite bind_run. unfold group_entries. rewrite bind_run. simpl.
  rewrite bind_run. rewrite Hd. simpl.
  rewrite (group_to_dic_loop_run _ [] db1)
    by (by apply group_entries_valid).
  simpl. by rewrite <- app_assoc.
Qed.

Lemma group_lookups_are_lookups path g :
  forallb is_lookup (group_lookups path g) = true.
Proof.
  unfold group_lookups. simpl. destruct (head _) as [group|]; [|done].
  destruct (get_group group g) as [d|]; [|done].
  apply forallb_forall. intros c Hc.
  apply list_elem_of_In, list_elem_of_fmap in Hc as (e & -> & _). done.
Qed.


(** ** Custom properties in the record *)

Lemma foldl_put_fresh (l : list (string * string)) :
  ∀ d k, k ∉ l.*1 → foldl put d l !! k = d !! k.
Proof.
  induction l as [|[k' v'] l IH]; intros d k Hk; simpl; [done|].
  simpl in Hk. apply not_elem_of_cons in Hk as [Hne Hk].
  rewrite IH by done. unfold put. simpl. by rewrite lookup_insert_ne.
Qed.

Lemma foldl_put_elem (l : list (string * string)) :
  ∀ d k v, NoDup l.*1 → (k, v) ∈ l → foldl put d l !! k = Some v.
Proof.
  induction l as [|[k' v'] l IH]; intros d k v Hnd Hin; simpl.
  - by apply not_elem_of_nil in Hin.
  - simpl in Hnd. apply NoDup_cons in Hnd as [Hk' Hnd].
    apply elem_of_cons in Hin as [[= -> ->]|Hin].
    + rewrite foldl_put_fresh by done. unfold put. simpl.
      by rewrite lookup_insert_eq.
    + by apply IH.
Qed.

(** Each custom property is in the values under its own key, whatever was
    put there before it. *)
Lemma secret_values_custom e k v :
  Entry.custom_properties e !! k = Some v → secret_values e !! k = Some v.
Proof.
  intros Hk. unfold secret_values. apply foldl_put_elem.
  - apply NoDup_fst_map_to_list.
  - by apply elem_of_map_to_list.
Qed.

(** Without a custom property of that name, the username is the entry's. *)
Lemma secret_values_username e u :
  Entry.custom_properties e !! "username" = None →
  Entry.username e = Some u → u ≠ "" →
  secret_values e !! "username" = Some u.
Proof.
  intros Hk Hu Hne. unfold secret_values.
  change (λ d kv, <[kv.1:=kv.2]> d) with put.
  rewrite foldl_put_fresh.
  - rewrite Hu. apply truthy_true in Hne as ->.
    destruct (Entry.password e) as [p|]; [destruct (Py.truthy p)|].
    + rewrite lookup_insert_ne by done. by rewrite lookup_insert_eq.
    + by rewrite lookup_insert_eq.
    + by rewrite lookup_insert_eq.
  - intros Hin. apply list_elem_of_fmap in Hin as ([k v] & Heq & Hin).
    apply elem_of_map_to_list in Hin. simpl in Heq. congruence.
Qed.

(** The reader hands the pieces of the path to the lookup as [split] gives
    them. *)
Lemma secret_to_dic_run s db :
  is_blank (Some s) = false →
  secret_to_dic (Some s) db
  = (Return (secret_record (Py.split "/" s) (root_group db)),
     mkdb (root_group db)
          (calls db ++ [find_entries_by_path_call (Py.split "/" s)])).
Proof.
  intros Hb. unfold secret_to_dic. rewrite (not_blank_inv _ Hb). simpl.
  rewrite bind_run, find_entries_by_path_run. unfold secret_record.
  set (db1 := mkdb _ _).
  destruct (head (entry_matches _ _)) as [entry|] eqn:He; [|done].
  destruct (entry_matches_valid _ _ _ He) as ([x Hx] & key & Hkey).
  rewrite bind_run, from_option_run, index_minus_one, Hkey.
  by rewrite bind_run, (read_entry_run entry db1 x Hx), Hx.
Qed.

(** C10.  Custom-property key shadowing: when an entry has a custom
    property named [username] or [password], the record each of the three
    modules builds for it maps that key to the value of the custom property,
    whatever the entry's own username or password is.  For the writer this
    is [_convert_secret_to_dic]; for the group reader the entry is the one
    found again by the path of a direct entry of the group. *)
Theorem custom_property_shadows x k v :
  k = "username" ∨ k = "password" →
  Entry.custom_properties x !! k = Some v →
  (∀ path entry changed db key,
      last path = Some key →
      get_entry entry (root_group db) = Some x →
      ∃ vals,
        _convert_secret_to_dic path entry changed db
        = (Return (Some {[ key := vals ]}, changed), db)
        ∧ vals !! k = Some v)
  ∧ (∀ s db entry,
      is_blank (Some s) = false →
      head (entry_matches (Py.split "/" s) (root_group db)) = Some entry →
      get_entry entry (root_group db) = Some x →
      ∃ key vals,
        (secret_to_dic (Some s) db).1 = Return {[ key := vals ]}
        ∧ vals !! k = Some v)
  ∧ (∀ s db group d j p found,
      is_blank (Some s) = false →
      head (group_matches (segments s) (root_group db)) = Some group →
      get_group group (root_group db) = Some d →
      (j < length (Group.entries d))%nat →
      entry_path (group, j) (root_group db) = Some p →
      head (entry_matches p (root_group db)) = Some found →
      get_entry found (root_group db) = Some x →
      ∃ secrets vals,
        (group_to_dic (Some s) db).1 = Return secrets
        ∧ {[ Entry.title x := vals ]} ∈ secrets
        ∧ vals !! k = Some v).
Proof.
  intros _ Hk. pose proof (secret_values_custom x k v Hk) as Hvals.
  split_and!.
  - intros path entry changed db key Hkey Hx. exists (secret_values x).
    split; [by apply convert_run|done].
  - intros s db entry Hb He Hx. rewrite (secret_to_dic_run _ _ Hb). simpl.
    unfold secret_record. rewrite He, Hx.
    destruct (entry_matches_valid _ _ _ He) as (_ & key & ->).
    by exists key, (secret_values x).
  - intros s db group d j p found Hb Hg Hd Hj Hp Hfound Hx.
    rewrite (group_to_dic_run s db Hb). simpl.
    exists (group_records (segments s) (root_group db)), (secret_values x).
    split_and!; [done| |done].
    unfold group_records. rewrite Hg, Hd.
    apply list_elem_of_omap. exists (group, j). split.
    + apply list_elem_of_fmap. exists j. split; [done|].
      apply elem_of_seq. simpl. lia.
    + unfold reresolved_record. rewrite Hp. simpl. rewrite Hfound. simpl.
      by rewrite Hx.
Qed.

(** ** Materializing twice *)

Lemma kept_group_path r :
  ∀ old new p, kept old new → group_path r old = Some p →
               group_path r new = Some p.
Proof.
  induction r as [|i r IH]; intros old new p Hkept; simpl; [done|].
  destruct (Group.subgroups old !! i) as [c|] eqn:Hc; [|done].
  destruct (group_path r c) as [p'|] eqn:Hp; simpl; [|done].
  intros [= <-].
  destruct (Hkept [i] c) as (c' & Hc' & Hname & _); [simpl; by rewrite Hc|].
  simpl in Hc'. destruct (Group.subgroups new !! i) as [c0|] eqn:Hc0; [|done].
  injection Hc' as ->.
  rewrite (IH c c' p'), Hname; [done| |done].
  intros q h Hq. destruct (Hkept (i :: q) h) as (h' & Hq' & ?).
  { simpl. by rewrite Hc. }
  simpl in Hq'. rewrite Hc0 in Hq'. eauto.
Qed.

Lemma group_path_snoc r :
  ∀ g p d i c,
    group_path r g = Some p → get_group r g = Some d →
    Group.subgroups d !! i = Some c →
    group_path (r ++ [i]) g = Some (p ++ [Group.name c]).
Proof.
  induction r as [|j r IH]; intros g p d i c; simpl.
  - intros [= <-] [= <-] Hc. by rewrite Hc.
  - destruct (Group.subgroups g !! j) as [c0|]; [|done].
    destruct (group_path r c0) as [p'|] eqn:Hp; simpl; [|done].
    intros [= <-] Hd Hc. by rewrite (IH _ _ _ _ _ Hp Hd Hc).
Qed.

(** A new group is the only new group: a group of the updated tree is the
    added one or was there before, under the same path. *)
Lemma add_group_reflects_paths group_name r :
  ∀ q g p d,
    get_group r g = Some d →
    group_path q (alter_group (append_group group_name) r g) = Some p →
    group_path q g = Some p ∨ q = r ++ [length (Group.subgroups d)].
Proof.
  induction r as [|i r IH]; intros q g p d; simpl.
  - intros [= <-]. destruct q as [|j q]; simpl; [eauto|].
    destruct (Group.subgroups g !! j) as [c|] eqn:Hc.
    + rewrite (lookup_app_l_Some _ _ _ _ Hc). eauto.
    + apply lookup_ge_None in Hc. rewrite lookup_app_r by done.
      destruct (j - length (Group.subgroups g)) as [|n] eqn:Hj; simpl; [|done].
      destruct q as [|k q]; simpl; [|done].
      intros _. right. f_equal. lia.
  - destruct (Group.subgroups g !! i) as [c|] eqn:Hc; [|done].
    intros Hd. destruct q as [|j q]; simpl; [eauto|].
    destruct (decide (i = j)) as [<-|Hne].
    + rewrite list_lookup_alter_eq, Hc. simpl.
      rewrite alter_group_name by done.
      destruct (group_path q (alter_group _ r c)) as [p'|] eqn:Hp;
        simpl; [|done].
      intros [= <-].
      destruct (IH _ _ _ _ Hd Hp) as [-> | ->]; [by left|by right].
    + rewrite list_lookup_alter_ne by done. eauto.
Qed.

(** After a group was missing at [walked ++ [item]] and has been added
    under the group at [walked], the lookup of [walked ++ [item]] returns
    it. *)
Lemma add_group_found group_name walked dest g d :
  group_path dest g = Some walked →
  get_group dest g = Some d →
  head (group_matches (walked ++ [group_name]) g) = None →
  head (group_matches (walked ++ [group_name])
          (alter_group (append_group group_name) dest g))
  = Some (dest ++ [length (Group.subgroups d)]).
Proof.
  intros Hp Hd Hnone.
  set (g' := alter_group (append_group group_name) dest g).
  assert (group_path (dest ++ [length (Group.subgroups d)]) g'
          = Some (walked ++ [group_name])) as Hnew.
  { apply (group_path_snoc _ _ _ (append_group group_name d) _
             (Group.fresh group_name)).
    - by apply (kept_group_path _ g), Hp; apply add_group_kept.
    - unfold g'. by rewrite get_group_alter, Hd.
    - simpl. by apply list_lookup_middle. }
  destruct (head (group_matches (walked ++ [group_name]) g')) as [q|] eqn:Hq.
  - apply head_Some_elem_of, elem_of_group_matches in Hq.
    destruct (add_group_reflects_paths _ _ _ _ _ _ Hd Hq) as [Hold | ->];
      [|done].
    apply elem_of_group_matches in Hold. apply head_None in Hnone.
    rewrite Hnone in Hold. by apply not_elem_of_nil in Hold.
  - apply head_None in Hq. apply elem_of_group_matches in Hnew.
    rewrite Hq in Hnew. by apply not_elem_of_nil in Hnew.
Qed.

(** The walk ends on the group that the lookup of the path without its last
    segment returns in the tree the walk leaves. *)
Lemma materialize_groups_reaches path :
  ∀ items walked parent_group db p db',
    path = walked ++ items → items ≠ [] →
    match parent_group with
    | Some r => head (group_matches walked (root_group db)) = Some r
    | None => walked = []
    end →
    materialize_groups path items walked parent_group (length walked) db
    = (Return p, db') →
    match p with
    | Some r => head (group_matches (removelast path) (root_group db')) = Some r
    | None => length path = 1
    end.
Proof.
  induction items as [|item rest IH];
    intros walked parent_group db p db' Hpath Hne Hinv; [done|].
  simpl. rewrite bind_run, from_option_run, index_last.
  assert (last path = last (item :: rest)) as ->.
  { rewrite Hpath, last_app.
    destruct (last (item :: rest)) eqn:E; [done|]. by apply last_None in E. }
  destruct rest as [|x rest].
  - simpl. rewrite bool_decide_eq_true_2 by done.
    rewrite bool_decide_eq_true_2 by (rewrite Hpath, length_app; simpl; lia).
    simpl. intros [= <- <-]. rewrite Hpath, removelast_last.
    destruct parent_group as [r|]; [done|]. by subst walked.
  - destruct (last (item :: x :: rest)) as [final|] eqn:Hfinal;
      [|by apply last_None in Hfinal].
    rewrite (bool_decide_eq_false_2 (Z.of_nat _ = _))
      by (rewrite Hpath, length_app; simpl; lia).
    rewrite andb_false_r, bind_run, find_groups_run.
    assert (path = (walked ++ [item]) ++ x :: rest) as Hpath'
      by (by rewrite <- app_assoc).
    assert (length (walked ++ [item]) = S (length walked)) as Hlen
      by (rewrite length_app; simpl; lia).
    destruct (head (group_matches (walked ++ [item]) (root_group db)))
      as [gref|] eqn:Hfind.
    + rewrite bind_run. simpl. rewrite <- Hlen. by apply IH.
    + rewrite bind_run.
      assert (group_path (default root_group_ref parent_group) (root_group db)
              = Some walked) as Hdest.
      { destruct parent_group as [r|]; simpl; [|by subst walked].
        by apply head_Some_elem_of, elem_of_group_matches in Hinv. }
      destruct (group_path_valid _ _ _ Hdest) as [d Hd].
      rewrite (add_group_run _ _ _ d) by done.
      simpl. rewrite <- Hlen.
      apply IH; [done|done|]. simpl. by apply add_group_found.
Qed.

(** Materializing the same nested path twice in succession: the second walk
    creates nothing, leaves the tree of the first walk as it is, and ends on
    the same group as the first. *)
Lemma materialize_groups_twice path db deepest db1 :
  (2 ≤ length path)%nat →
  materialize_groups path path [] None 0 db = (Return deepest, db1) →
  ∃ evs,
    materialize_groups path path [] None 0 db1
    = (Return deepest, mkdb (root_group db1) (calls db1 ++ evs))
    ∧ forallb is_lookup evs = true.
Proof.
  intros Hlen Hrun.
  pose proof (materialize_groups_reaches path path [] None db deepest db1
                eq_refl) as Hreach.
  destruct deepest as [r|]; cycle 1.
  { assert (length path = 1); [|lia].
    apply Hreach; [|done|done]. intros ->. simpl in Hlen. lia. }
  assert (head (group_matches (removelast path) (root_group db1)) = Some r)
    as Hr.
  { apply Hreach; [|done|done]. intros ->. simpl in Hlen. lia. }
  destruct (materialize_existing path path [] None db1) as (evs & Hrun2 & Hevs).
  - done.
  - intros k [Hk1 Hk2]. simpl in Hk1. apply head_is_Some.
    apply (group_matches_prefix _ (drop k (removelast path))).
    rewrite <- (take_drop k (removelast path)) in Hr.
    assert (take k (removelast path) = take k path) as <-.
    { destruct path as [|s path] using rev_ind; [done|].
      rewrite removelast_last. rewrite length_app in Hk2. simpl in Hk2.
      by rewrite take_app_le by lia. }
    intros Hnil. by rewrite Hnil in Hr.
  - simpl in Hrun2. rewrite decide_False in Hrun2 by lia.
    rewrite Hr in Hrun2. eauto.
Qed.

(** ** The two slips, for every store *)

Lemma group_matches_no_child s rest g :
  Forall (λ c, Group.name c ≠ s) (Group.subgroups g) →
  group_matches (s :: rest) g = [].
Proof.
  intros Hall. destruct (group_matches (s :: rest) g) as [|r l] eqn:E; [done|].
  assert (r ∈ group_matches (s :: rest) g) as Hr by (rewrite E; left).
  apply elem_of_group_matches in Hr. destruct r as [|i r]; simpl in Hr; [done|].
  destruct (Group.subgroups g !! i) as [c|] eqn:Hc; [|done].
  destruct (group_path r c) as [p|]; simpl in Hr; [|done].
  injection Hr as Hn _. rewrite Forall_lookup in Hall. by destruct (Hall i c Hc).
Qed.

(** X10.  A path string that starts with a slash reaches the reader's lookup
    with an empty first piece: unless the root group has a child group with the
    empty name, [secret_to_dic] returns the empty dictionary, whatever the
    store holds. *)
Lemma secret_to_dic_leading_slash s db :
  is_blank (Some (String "/" s)) = false →
  Forall (λ c, Group.name c ≠ "") (Group.subgroups (root_group db)) →
  (secret_to_dic (Some (String "/" s)) db).1 = Return ∅.
Proof.
  intros Hb Hall. rewrite (secret_to_dic_run _ _ Hb). simpl.
  unfold secret_record, entry_matches.
  change (Py.split "/" (String "/" s)) with ("" :: Py.split "/" s).
  pose proof (split_nonempty "/" s) as Hne.
  destruct (Py.split "/" s) as [|x rest] eqn:E; [done|].
  destruct (last ("" :: x :: rest)) as [t|]; [|done].
  change (removelast ("" :: x :: rest)) with ("" :: removelast (x :: rest)).
  by rewrite (group_matches_no_child _ _ _ Hall).
Qed.

(** X11.  A path string with slashes and a single segment, such as
    ["/solo"], does not reach the branch for the root group: when no entry of that
    name is in the root group the writer calls [add_entry] without a
    destination and raises, whatever [force] is. *)
Lemma secret_write_slash_single_segment s name db_path username password url
    custom_properties force db :
  is_blank (Some s) = false →
  (1 < length (Py.split "/" s))%nat →
  segments s = [name] →
  head (entry_matches [name] (root_group db)) = None →
  secret_write (Some s) db_path username password url custom_properties
    force db
  = (Raise AttributeError,
     mkdb (root_group db)
          (calls db ++ [find_entries_by_path_call [name];
                        add_entry_call None name])).
Proof.
  intros Hb Hlen Hseg Hnone. rewrite (secret_write_segments _ _ _ _ _ _ _ Hb).
  apply Nat.ltb_lt in Hlen. rewrite Hlen, Hseg.
  unfold secret_write_groups. simpl.
  rewrite bind_run, bind_run. simpl.
  rewrite bool_decide_eq_true_2 by done. simpl.
  rewrite bind_run, find_entries_by_path_run, Hnone.
  rewrite bind_run. simpl. rewrite bind_run, add_entry_none. simpl.
  by rewrite <- app_assoc.
Qed.

(** A path string without slash, such as ["solo"], for which the root group
    has no entry of that title: the writer creates the entry in the root
    group, creates no group, saves and returns the record. *)
Lemma secret_write_root_level name db_path username password url
    custom_properties force db :
  is_blank (Some name) = false →
  length (Py.split "/" name) = 1 →
  head (entry_matches [name] (root_group db)) = None →
  ∃ x db',
    secret_write (Some name) db_path username password url custom_properties
      force db
    = (Return (Some {[ name := secret_values x ]}, true), db')
    ∧ calls db'
      = calls db ++ [find_entries_by_path_call [name];
                     add_entry_call (Some root_group_ref) name;
                     save_call db_path]
    ∧ get_entry (root_group_ref, length (Group.entries (root_group db)))
                (root_group db') = Some x
    ∧ Entry.title x = name.
Proof.
  intros Hb Hlen Hnone. rewrite (secret_write_segments _ _ _ _ _ _ _ Hb).
  rewrite Hlen. simpl. unfold segments.
  rewrite <- (compact_split_single _ (not_blank_nonempty _ Hb) Hlen).
  rewrite (split_single _ _ Hlen).
  unfold secret_write_root.
  rewrite bind_run, find_entries_by_path_run, Hnone.
  rewrite bind_run. simpl.
  set (db1 := mkdb _ _).
  assert (valid_parent (Some root_group_ref) (root_group db1)) as Hvalid.
  { intros r [= <-]. simpl. eauto. }
  pose proof (creation_tail_run [name] db_path (Some root_group_ref) name
                username password url true _ name db1
                (attaches_truthy custom_properties) eq_refl Hvalid) as Hrun.
  unfold creation_tail in Hrun.
  destruct ((add_entry _ _ _ _ _ _ ≫= _) db1) as [[[secret changed]|e] db'].
  - destruct Hrun as (-> & Hcalls & r & d & x & [= <-] & [= <-] & Hx & Ht & ->).
    exists x, db'. split_and!; [done| |done|done].
    rewrite Hcalls. simpl. by rewrite <- app_assoc.
  - by destruct Hrun as (_ & _ & [[_ ?] | [_ ?]]).
Qed.

(** A nested write that finds no entry at its path and returns has created
    an entry whose title is the first segment of the path, not the last. *)
Lemma secret_write_groups_title path db_path username password url
    custom_properties force db secret changed db' :
  head (entry_matches path (root_group db)) = None →
  secret_write_groups path db_path username password url custom_properties
    force db
  = (Return (secret, changed), db') →
  ∃ e x first key,
    head path = Some first ∧ last path = Some key
    ∧ get_entry e (root_group db') = Some x
    ∧ Entry.title x = first
    ∧ secret = Some {[ key := secret_values x ]}
    ∧ changed = true.
Proof.
  intros He. unfold secret_write_groups. rewrite bind_run.
  destruct (materialize_groups_spec path path [] None 0 db)
    as (o & db1 & evs & -> & _ & _ & _ & Hrefl & Ho); [by intros r|].
  destruct o as [parent_group|err]; [|done].
  rewrite bind_run, find_entries_by_path_run.
  destruct (head (entry_matches path (root_group db1))) as [e|] eqn:He'.
  { apply head_Some_elem_of in He'.
    apply (reflects_entry_matches _ _ _ _ Hrefl) in He'.
    apply head_None in He. rewrite He in He'.
    by apply not_elem_of_nil in He'. }
  rewrite bind_run, from_option_run, index_zero.
  destruct (head path) as [first|] eqn:Hfirst; [|done].
  destruct (head_last_Some _ _ Hfirst) as [key Hkey].
  set (db2 := mkdb _ _).
  pose proof (creation_tail_run path db_path parent_group first
                username password url false _ key db2
                (attaches_truthy custom_properties) Hkey Ho) as Hrun.
  unfold creation_tail in Hrun.
  destruct ((add_entry _ _ _ _ _ _ ≫= _) db2)
    as [[[secret' changed']|e] db''].
  - destruct Hrun as (-> & _ & r & d & x & _ & _ & Hx & Ht & ->).
    intros [= <- <- <-]. by exists (r, length (Group.entries d)), x, first, key.
  - done.
Qed.

(** ** Invalid paths *)

(** C4.  Invalid path rejection, as the code has it: each of the three
    operations raises [ValueError] when the path string is [None], empty or
    whitespace-only, and the handle is then exactly as it was: no call was
    made on it. *)
Theorem blank_path_rejected secret_path db :
  is_blank secret_path = true →
  (∀ db_path username password url custom_properties force,
      secret_write secret_path db_path username password url
        custom_properties force db
      = (Raise (ValueError "secret_path is required"), db))
  ∧ secret_to_dic secret_path db
    = (Raise (ValueError "secret_path is required"), db)
  ∧ group_to_dic secret_path db
    = (Raise (ValueError "secret_path is required"), db).
Proof.
  intros Hb. unfold secret_write, secret_to_dic, group_to_dic.
  destruct secret_path as [s|]; [|done].
  simpl in Hb. by rewrite Hb.
Qed.

Lemma blank_path_rejected_witness :
  is_blank (Some "  ") = true
  ∧ secret_to_dic (Some "  ") (open_db store_abc)
    = (Raise (ValueError "secret_path is required"), open_db store_abc).
Proof.
  split; [reflexivity|].
  apply (blank_path_rejected (Some "  ") (open_db store_abc)). reflexivity.
Defined.

(** The path ["/"] has no segment left after filtering, and no operation
    rejects it as an invalid path: the reader and the group reader return
    empty results and the writer fails on [path[0]], all three after a
    lookup on the handle. *)
Lemma slash_path_not_rejected :
  is_blank (Some "/") = false
  ∧ segments "/" = []
  ∧ secret_to_dic (Some "/") (open_db empty_root)
    = (Return ∅, mkdb empty_root [find_entries_by_path_call [""; ""]])
  ∧ group_to_dic (Some "/") (open_db empty_root)
    = (Return [], mkdb empty_root [find_groups_call []])
  ∧ secret_write (Some "/") "keys.kdbx" (Some "u") (Some "p") None None false
      (open_db empty_root)
    = (Raise IndexError, mkdb empty_root [find_entries_by_path_call []])
  ∧ ¬ (∃ msg db',
         secret_to_dic (Some "/") (open_db empty_root)
         = (Raise (ValueError msg), db')).
Proof.
  split_and!; try reflexivity.
  intros (msg & db' & H). vm_compute in H. discriminate H.
Qed.

(** ** Where the code departs from the specification *)

(** C3.  Empty-segment stripping holds for the writer and the group reader
    but not for [secret_to_dic]: on ["/a//b/"], whose segments are [a] and
    [b], the reader hands the five pieces of the split, three of them
    empty, to the lookup, and so does not find the entry at a/b that the
    same reader finds under ["a/b"]. *)
Theorem reader_keeps_empty_segments :
  segments "/a//b/" = ["a"; "b"]
  ∧ (∀ db, calls (secret_to_dic (Some "/a//b/") db).2
           = calls db ++ [find_entries_by_path_call [""; "a"; ""; "b"; ""]])
  ∧ (∀ db, ∃ evs,
        calls (group_to_dic (Some "/a//b/") db).2
        = calls db ++ find_groups_call ["a"; "b"] :: evs)
  ∧ (secret_to_dic (Some "/a//b/")
       (open_db (Group.mk "Root" [ Group.mk "a" []
                   [ Entry.mk "b" (Some "u") (Some "p") None ∅ ] ] []))).1
    = Return ∅
  ∧ (secret_to_dic (Some "a/b")
       (open_db (Group.mk "Root" [ Group.mk "a" []
                   [ Entry.mk "b" (Some "u") (Some "p") None ∅ ] ] []))).1
    = Return {[ "b" := {[ "username" := "u"; "password" := "p" ]} ]}.
Proof.
  split_and!.
  - reflexivity.
  - intros db. by rewrite secret_to_dic_run.
  - intros db. rewrite (group_to_dic_run "/a//b/" db eq_refl).
    by eexists.
  - reflexivity.
  - reflexivity.
Qed.

(** C1.  Write-then-read round trip, on the empty store: the write creates
    the groups a and a/b and returns the record under [c], but the entry it
    creates in a/b is titled [a], the first segment; no entry is at a/b/c
    afterwards, and the read of ["/a/b/c"], which moreover looks up the
    unfiltered pieces, returns the empty dictionary. *)
Theorem write_then_read_nested :
  let written :=
    secret_write (Some "/a/b/c") "keys.kdbx" (Some "u") (Some "p") None None
      false (open_db empty_root) in
  written.1
  = Return (Some {[ "c" := {[ "username" := "u"; "password" := "p" ]} ]}, true)
  ∧ root_group written.2
    = Group.mk "Root"
        [ Group.mk "a"
            [ Group.mk "b" [] [ Entry.mk "a" (Some "u") (Some "p") None ∅ ] ]
            [] ]
        []
  ∧ head (entry_matches ["a"; "b"; "c"] (root_group written.2)) = None
  ∧ (secret_to_dic (Some "/a/b/c") written.2).1 = Return ∅
  ∧ (secret_to_dic (Some "a/b/c") written.2).1 = Return ∅
  ∧ (secret_to_dic (Some "a/b/a") written.2).1
    = Return {[ "a" := {[ "username" := "u"; "password" := "p" ]} ]}.
Proof. split_and!; reflexivity. Qed.

(** C2.  Root-level write of ["/solo"], on the empty store: the split has
    two pieces, so the branch for the root group is not taken; the walk
    leaves [parent_group] at [None] and [add_entry] is called without a
    destination: the write raises, creates nothing and saves nothing.  The
    same write of ["solo"] creates the entry in the root group. *)
Theorem root_level_write_with_slash :
  secret_write (Some "/solo") "keys.kdbx" (Some "u") (Some "p") None None
    false (open_db empty_root)
  = (Raise AttributeError,
     mkdb empty_root
       [find_entries_by_path_call ["solo"]; add_entry_call None "solo"])
  ∧ secret_write (Some "solo") "keys.kdbx" (Some "u") (Some "p") None None
      false (open_db empty_root)
    = (Return (Some {[ "solo" := {[ "username" := "u"; "password" := "p" ]} ]},
               true),
       mkdb (Group.mk "Root" []
               [ Entry.mk "solo" (Some "u") (Some "p") None ∅ ])
         [find_entries_by_path_call ["solo"];
          add_entry_call (Some root_group_ref) "solo";
          save_call "keys.kdbx"]).
Proof. split; reflexivity. Qed.

(** C6.  Forced overwrite of a nested entry.  On the store with an entry
    [c] in group [a], the forced write of ["/a/c"] deletes [c] and creates
    its replacement under the title [a]: no entry is at a/c afterwards and a
    read of the path returns the empty dictionary.  On the store where
    group [g] holds entries [x] and [g] of one username, the forced write of
    ["/g/x"] deletes [x] and then raises, because the replacement is created
    under the title [g] without [force_creation]; nothing is saved.  The
    forced write of the root-level ["c"] replaces the entry as specified. *)
Theorem forced_overwrite_nested :
  let written :=
    secret_write (Some "/a/c") "keys.kdbx" (Some "u") (Some "p") None
      (Some {[ "k" := "v" ]}) true (open_db store_ac) in
  head (entry_matches ["a"; "c"] store_ac) = Some ([0], 0)
  ∧ written.1
    = Return (Some {[ "c" := {[ "username" := "u"; "password" := "p";
                               "k" := "v" ]} ]}, true)
  ∧ root_group written.2
    = Group.mk "Root"
        [ Group.mk "a" []
            [ Entry.mk "a" (Some "u") (Some "p") None {[ "k" := "v" ]} ] ]
        []
  ∧ head (entry_matches ["a"; "c"] (root_group written.2)) = None
  ∧ (secret_to_dic (Some "a/c") written.2).1 = Return ∅
  ∧ secret_write (Some "/g/x") "keys.kdbx" (Some "u") (Some "p") None None
      true (open_db store_clash)
    = (Raise (Exception "entry already exists"),
       mkdb (Group.mk "Root"
               [ Group.mk "g" []
                   [ Entry.mk "g" (Some "u") (Some "p2") None ∅ ] ] [])
         [find_groups_call ["g"]; find_entries_by_path_call ["g"; "x"];
          delete_entry_call ([0], 0); add_entry_call (Some [0]) "g"])
  ∧ (let replaced :=
       secret_write (Some "c") "keys.kdbx" (Some "u") (Some "p") None
         (Some {[ "k" := "v" ]}) true (open_db store_c) in
     replaced.1
     = Return (Some {[ "c" := {[ "username" := "u"; "password" := "p";
                                "k" := "v" ]} ]}, true)
     ∧ root_group replaced.2
       = Group.mk "Root" []
           [ Entry.mk "c" (Some "u") (Some "p") None {[ "k" := "v" ]} ]
     ∧ (secret_to_dic (Some "c") replaced.2).1
       = Return {[ "c" := {[ "username" := "u"; "password" := "p";
                             "k" := "v" ]} ]}).
Proof. cbv zeta. split_and!; reflexivity. Qed.

(** ** The confirmed properties at sample inputs *)

Lemma secret_write_no_clobber_witness :
  ∃ x key evs,
    get_entry ([0; 0], 0) store_abc = Some x
    ∧ last (segments "/a/b/c") = Some key
    ∧ secret_write (Some "/a/b/c") "keys.kdbx" (Some "u") (Some "p") None None
        false (open_db store_abc)
      = (Return (Some {[ key := secret_values x ]}, false),
         mkdb store_abc ([] ++ evs))
    ∧ forallb is_lookup evs = true.
Proof.
  apply (secret_write_no_clobber "/a/b/c" "keys.kdbx" (Some "u") (Some "p")
           None None (open_db store_abc) ([0; 0], 0));
    reflexivity.
Defined.

Lemma materialize_groups_idempotent_witness :
  (∃ deepest evs,
      head (group_matches (removelast ["a"; "b"; "c"]) store_abc) = Some deepest
      ∧ materialize_groups ["a"; "b"; "c"] ["a"; "b"; "c"] [] None 0
          (open_db store_abc)
        = (Return (Some deepest), mkdb store_abc ([] ++ evs))
      ∧ forallb is_lookup evs = true
      ∧ existsb is_add_group evs = false)
  ∧ (∀ path' db',
       kept (root_group db')
            (root_group (materialize_groups path' path' [] None 0 db').2)).
Proof.
  apply (materialize_groups_idempotent ["a"; "b"; "c"] (open_db store_abc)).
  - simpl. lia.
  - reflexivity.
Defined.


Lemma custom_property_shadows_witness :
  ∃ key vals,
    (secret_to_dic (Some "g/y") (open_db store_xyz)).1
    = Return {[ key := vals ]}
    ∧ vals !! "username" = Some "shadow".
Proof.
  destruct (custom_property_shadows
              (Entry.mk "y" (Some "uy") (Some "py") None
                 {[ "username" := "shadow" ]})
              "username" "shadow")
    as (_ & Hreader & _).
  - left. reflexivity.
  - reflexivity.
  - apply (Hreader "g/y" (open_db store_xyz) ([0], 1)); reflexivity.
Defined.

(** * Further properties of the code *)

(** ** The entry a write stores *)

Lemma alter_group_fuse (f f' f'' : Group.t → Group.t) r :
  ∀ g d, get_group r g = Some d → f (f' d) = f'' d →
         alter_group f r (alter_group f' r g) = alter_group f'' r g.
Proof.
  induction r as [|i r IH]; intros g d; simpl.
  - by intros [= <-].
  - destruct (Group.subgroups g !! i) as [c|] eqn:Hc; [|done].
    intros Hd Hf. destruct g as [n subs es]. unfold Group.with_subgroups.
    simpl in *. f_equal. rewrite list_alter_alter_eq.
    apply list_alter_ext; [|done]. intros c' Hc'. simpl.
    rewrite Hc in Hc'. injection Hc' as <-. by apply (IH c d).
Qed.

Lemma alter_appended_entry (F : Entry.t → Entry.t) y r g d :
  get_group r g = Some d →
  alter_entry F (r, length (Group.entries d)) (alter_group (append_entry y) r g)
  = alter_group (append_entry (F y)) r g.
Proof.
  intros Hd. unfold alter_entry. simpl.
  apply (alter_group_fuse _ _ _ _ _ d Hd).
  destruct d as [n subs es]. unfold append_entry, Group.with_entries. simpl.
  f_equal. rewrite <- (Nat.add_0_r (length es)). by rewrite alter_app_r.
Qed.

Lemma set_custom_properties_appended items :
  ∀ r g d y db,
    get_group r g = Some d →
    root_group db = alter_group (append_entry y) r g →
    set_custom_properties (r, length (Group.entries d)) items db
    = (Return tt,
       mkdb (alter_group (append_entry (set_all items y)) r g) (calls db)).
Proof.
  induction items as [|[k v] items IH]; intros r g d y db Hd Hroot; simpl.
  - rewrite <- Hroot. by destruct db.
  - rewrite bind_run. unfold set_custom_property at 1.
    rewrite bind_run. simpl. rewrite bind_run, Hroot.
    rewrite (add_entry_valid y r g d Hd). simpl.
    rewrite (alter_appended_entry _ _ _ _ _ Hd).
    by rewrite (IH r g d (Entry.set_custom_property k v y)
                  (mkdb (alter_group
                           (append_entry (Entry.set_custom_property k v y))
                           r g) (calls db)) Hd eq_refl).
Qed.

Lemma attaches_all_not_none custom_properties :
  attaches_all custom_properties (λ entry,
    match custom_properties with
    | Some d => set_custom_properties entry (map_to_list d)
    | None => mret tt
    end).
Proof.
  intros r g d y db Hd Hroot. destruct custom_properties as [props|]; simpl.
  - by apply set_custom_properties_appended.
  - rewrite map_to_list_empty. simpl. rewrite <- Hroot. by destruct db.
Qed.

Lemma attaches_all_truthy custom_properties :
  attaches_all custom_properties (λ entry,
    match custom_properties with
    | Some d =>
        if dict_truthy d then set_custom_properties entry (map_to_list d)
        else mret tt
    | None => mret tt
    end).
Proof.
  intros r g d y db Hd Hroot. destruct custom_properties as [props|]; simpl.
  - unfold dict_truthy. case_bool_decide as Hempty; simpl.
    + subst props. rewrite map_to_list_empty. simpl.
      rewrite <- Hroot. by destruct db.
    + by apply set_custom_properties_appended.
  - rewrite map_to_list_empty. simpl. rewrite <- Hroot. by destruct db.
Qed.

Lemma foldl_put_map_to_list (d : gmap string string) :
  foldl put ∅ (map_to_list d) = d.
Proof.
  apply map_eq. intros k. destruct (d !! k) as [v|] eqn:Hk.
  - apply foldl_put_elem; [apply NoDup_fst_map_to_list|].
    by apply elem_of_map_to_list.
  - rewrite foldl_put_fresh; [done|].
    intros Hin. apply list_elem_of_fmap in Hin as ([k' v'] & Heq & Hin).
    apply elem_of_map_to_list in Hin. simpl in Heq. congruence.
Qed.

Lemma set_all_custom_properties items :
  ∀ x, set_all items x
       = Entry.mk (Entry.title x) (Entry.username x) (Entry.password x)
           (Entry.url x) (foldl put (Entry.custom_properties x) items).
Proof.
  induction items as [|[k v] items IH]; intros x; simpl.
  - by destruct x.
  - by rewrite IH.
Qed.

Lemma set_all_new_entry title username password url custom_properties :
  set_all (map_to_list (default ∅ custom_properties))
          (new_entry title username password url)
  = written title username password url custom_properties.
Proof.
  rewrite set_all_custom_properties. unfold written, new_entry. simpl.
  by rewrite foldl_put_map_to_list.
Qed.

(** A creating tail whose destination is a group of the tree and whose
    creation is not refused: the written entry is appended to the
    destination, [save] follows, and the record of the written entry is
    returned. *)
Lemma creation_tail_exact path db_path r d title username password url
    force_creation custom_properties step key db :
  attaches_all custom_properties step →
  last path = Some key →
  get_group r (root_group db) = Some d →
  clashes title username (Group.entries d) && negb force_creation = false →
  creation_tail path db_path (Some r) title username password url
    force_creation step db
  = (Return (Some {[ key := secret_values
                              (written title username password url
                                 custom_properties) ]}, true),
     mkdb (alter_group
             (append_entry
                (written title username password url custom_properties))
             r (root_group db))
          (calls db ++ [add_entry_call (Some r) title; save_call db_path])).
Proof.
  intros Hstep Hkey Hd Hclash. unfold creation_tail.
  rewrite bind_run, (add_entry_run _ _ _ _ _ _ _ _ Hd), Hclash.
  rewrite bind_run.
  rewrite (Hstep r (root_group db) d (new_entry title username password url)
             (mkdb (alter_group
                      (append_entry (new_entry title username password url))
                      r (root_group db))
                   (calls db ++ [add_entry_call (Some r) title]))
             Hd eq_refl).
  rewrite set_all_new_entry. rewrite bind_run, save_run.
  erewrite convert_run; [|done|simpl; by apply add_entry_valid].
  simpl. by rewrite <- app_assoc.
Qed.

(** ** Writes at the root level *)

Lemma secret_write_without_slash name db_path username password url
    custom_properties force :
  is_blank (Some name) = false →
  length (Py.split "/" name) = 1 →
  secret_write (Some name) db_path username password url custom_properties
    force
  = secret_write_root [name] db_path username password url custom_properties
      force.
Proof.
  intros Hb Hlen. rewrite (secret_write_segments _ _ _ _ _ _ _ Hb).
  rewrite Hlen. simpl. unfold segments.
  rewrite <- (compact_split_single _ (not_blank_nonempty _ Hb) Hlen).
  by rewrite (split_single _ _ Hlen).
Qed.

Lemma entry_matches_single name g :
  entry_matches [name] g = pair [] <$> titled name (Group.entries g).
Proof. unfold entry_matches. simpl. by rewrite app_nil_r. Qed.

Lemma titled_snoc t es w :
  titled t (es ++ [w])
  = titled t es ++ (if decide (Entry.title w = t) then [length es] else []).
Proof.
  unfold titled. rewrite imap_app, join_app. simpl.
  rewrite Nat.add_0_r. by rewrite app_nil_r.
Qed.

Lemma root_entry_ref name g e :
  head (entry_matches [name] g) = Some e → e.1 = [].
Proof.
  rewrite entry_matches_single. intros He.
  apply head_Some_elem_of, list_elem_of_fmap in He as (j & -> & _). done.
Qed.

Lemma root_creation_run name db_path username password url
    custom_properties force db :
  is_blank (Some name) = false →
  length (Py.split "/" name) = 1 →
  head (entry_matches [name] (root_group db)) = None →
  secret_write (Some name) db_path username password url custom_properties
    force db
  = (Return (Some {[ name := secret_values
                               (written name username password url
                                  custom_properties) ]}, true),
     mkdb (append_entry
             (written name username password url custom_properties)
             (root_group db))
          (calls db ++ [find_entries_by_path_call [name];
                        add_entry_call (Some root_group_ref) name;
                        save_call db_path])).
Proof.
  intros Hb Hlen Hnone.
  rewrite (secret_write_without_slash _ _ _ _ _ _ _ Hb Hlen).
  unfold secret_write_root.
  rewrite bind_run, find_entries_by_path_run, Hnone.
  rewrite bind_run. simpl.
  pose proof (creation_tail_exact [name] db_path root_group_ref
                (root_group db) name username password url true
                custom_properties _ name
                (mkdb (root_group db)
                      (calls db ++ [find_entries_by_path_call [name]]))
                (attaches_all_truthy custom_properties) eq_refl eq_refl)
    as Hrun.
  unfold creation_tail in Hrun. rewrite Hrun by apply andb_false_r.
  simpl. by rewrite <- app_assoc.
Qed.

Lemma root_overwrite_run name db_path username password url
    custom_properties db e :
  is_blank (Some name) = false →
  length (Py.split "/" name) = 1 →
  head (entry_matches [name] (root_group db)) = Some e →
  secret_write (Some name) db_path username password url custom_properties
    true db
  = (Return (Some {[ name := secret_values
                               (written name username password url
                                  custom_properties) ]}, true),
     mkdb (append_entry
             (written name username password url custom_properties)
             (Group.with_entries (delete e.2) (root_group db)))
          (calls db ++ [find_entries_by_path_call [name];
                        delete_entry_call e;
                        add_entry_call (Some root_group_ref) name;
                        save_call db_path])).
Proof.
  intros Hb Hlen He.
  rewrite (secret_write_without_slash _ _ _ _ _ _ _ Hb Hlen).
  unfold secret_write_root.
  rewrite bind_run, find_entries_by_path_run, He.
  set (db1 := mkdb _ _). simpl.
  destruct (entry_matches_valid _ _ _ He) as ([x Hx] & _).
  pose proof (root_entry_ref _ _ _ He) as Hroot.
  rewrite bind_run, (delete_entry_run e db1 x Hx). rewrite Hroot.
  set (g1 := Group.with_entries (delete e.2) (root_group db)).
  set (db2 := mkdb _ _).
  rewrite bind_run. simpl.
  pose proof (creation_tail_exact [name] db_path root_group_ref
                g1 name username password url true
                custom_properties _ name db2
                (attaches_all_not_none custom_properties) eq_refl eq_refl)
    as Hrun.
  unfold creation_tail in Hrun. rewrite Hrun by apply andb_false_r.
  simpl. by rewrite <- !app_assoc.
Qed.

(** X2.  Root-level creation: for a path without slash and a root group
    without an entry of that title, the writer appends the written entry to
    the entries of the root group, touches nothing else in the tree, makes
    the three calls lookup, creation and save, and returns the record of
    the written entry with [changed = True], whatever [force] is. *)
Theorem root_level_creation name db_path username password url
    custom_properties force db :
  is_blank (Some name) = false →
  length (Py.split "/" name) = 1 →
  head (entry_matches [name] (root_group db)) = None →
  secret_write (Some name) db_path username password url custom_properties
    force db
  = (Return (Some {[ name := secret_values
                               (written name username password url
                                  custom_properties) ]}, true),
     mkdb (append_entry
             (written name username password url custom_properties)
             (root_group db))
          (calls db ++ [find_entries_by_path_call [name];
                        add_entry_call (Some root_group_ref) name;
                        save_call db_path])).
Proof. by apply root_creation_run. Qed.

(** X3.  Root-level forced overwrite: for a path without slash whose entry
    exists, a write with [force = True] removes that entry, appends the
    written entry to the root group, saves, and returns the record of the
    written entry: the custom properties of the old entry are gone. *)
Theorem root_level_forced_overwrite name db_path username password url
    custom_properties db e :
  is_blank (Some name) = false →
  length (Py.split "/" name) = 1 →
  head (entry_matches [name] (root_group db)) = Some e →
  secret_write (Some name) db_path username password url custom_properties
    true db
  = (Return (Some {[ name := secret_values
                               (written name username password url
                                  custom_properties) ]}, true),
     mkdb (append_entry
             (written name username password url custom_properties)
             (Group.with_entries (delete e.2) (root_group db)))
          (calls db ++ [find_entries_by_path_call [name];
                        delete_entry_call e;
                        add_entry_call (Some root_group_ref) name;
                        save_call db_path])).
Proof. by apply root_overwrite_run. Qed.

(** X4.  Root-level writes are idempotent: after the creation of X2, a
    second write of the same path with [force = False], whatever fields it
    carries, returns the record of the first write with [changed = False],
    makes one lookup and leaves the tree of the first write as it is. *)
Theorem root_level_write_idempotent name db_path username password url
    custom_properties force db username' password' url' custom_properties' :
  is_blank (Some name) = false →
  length (Py.split "/" name) = 1 →
  head (entry_matches [name] (root_group db)) = None →
  let first :=
    secret_write (Some name) db_path username password url custom_properties
      force db in
  secret_write (Some name) db_path username' password' url'
    custom_properties' false first.2
  = (Return (Some {[ name := secret_values
                               (written name username password url
                                  custom_properties) ]}, false),
     mkdb (root_group first.2)
          (calls first.2 ++ [find_entries_by_path_call [name]])).
Proof.
  intros Hb Hlen Hnone first. unfold first.
  rewrite (secret_write_without_slash _ _ _ _ _ _ false Hb Hlen).
  rewrite (root_creation_run _ _ _ _ _ _ force _ Hb Hlen Hnone).
  cbn [snd root_group calls]. unfold secret_write_root.
  rewrite bind_run, find_entries_by_path_run. simpl.
  rewrite entry_matches_single in Hnone |- *. simpl.
  rewrite titled_snoc. simpl. rewrite decide_True by done.
  destruct (titled name (Group.entries (root_group db))) as [|j l] eqn:Ht;
    [|done].
  simpl.
  erewrite convert_run; [done|done|].
  simpl. unfold get_entry. simpl. by apply list_lookup_middle.
Qed.

(** ** The values of a record *)

(** X6.  The values of a record, key by key: a custom property gives its
    own value; without a custom property of that name, [username] and
    [password] give the entry's field when it is set and not empty; no
    other key is present.  An empty or missing username or password leaves
    no key. *)
Theorem secret_values_lookup e k :
  secret_values e !! k
  = match Entry.custom_properties e !! k with
    | Some v => Some v
    | None =>
        if decide (k = "username") then
          match Entry.username e with
          | Some u => if Py.truthy u then Some u else None
          | None => None
          end
        else if decide (k = "password") then
          match Entry.password e with
          | Some p => if Py.truthy p then Some p else None
          | None => None
          end
        else None
    end.
Proof.
  destruct (Entry.custom_properties e !! k) as [v|] eqn:Hk.
  - by apply secret_values_custom.
  - unfold secret_values. change (λ d kv, <[kv.1:=kv.2]> d) with put.
    rewrite foldl_put_fresh.
    2:{ intros Hin. apply list_elem_of_fmap in Hin as ([k' v'] & Heq & Hin).
        apply elem_of_map_to_list in Hin. simpl in Heq. congruence. }
    destruct (Entry.username e) as [u|]; [destruct (Py.truthy u)|];
      (destruct (Entry.password e) as [p|]; [destruct (Py.truthy p)|]);
      repeat case_decide; subst; simplify_map_eq; done.
Qed.

(** ** The walk of a path that has a segment *)

(** On a path that has a segment the walk always comes back. *)
Lemma materialize_groups_returns path :
  path ≠ [] →
  ∀ items walked parent_group i db,
    valid_parent parent_group (root_group db) →
    ∃ p db', materialize_groups path items walked parent_group i db
             = (Return p, db').
Proof.
  intros Hne. induction items as [|item rest IH];
    intros walked parent_group i db Hvalid; simpl; [eauto|].
  rewrite bind_run, from_option_run, index_last.
  destruct (last path) as [final|] eqn:Hfinal;
    [|by apply last_None in Hfinal].
  destruct (_ && _); [eauto|].
  rewrite bind_run, find_groups_run.
  set (db1 := mkdb _ _).
  destruct (head (group_matches (walked ++ [item]) (root_group db)))
    as [gref|] eqn:Hfind.
  - rewrite bind_run. simpl. apply IH. intros r [= <-].
    by apply (found_parent_valid (walked ++ [item])).
  - rewrite bind_run.
    assert (is_Some (get_group (default root_group_ref parent_group)
                               (root_group db1))) as [d Hd].
    { destruct parent_group as [r|]; simpl; [by apply Hvalid|eauto]. }
    rewrite (add_group_run _ _ _ _ Hd). apply IH.
    intros r [= <-]. simpl. erewrite add_group_valid; eauto.
Qed.

Lemma group_path_alter_entries (k : list Entry.t → list Entry.t) r :
  ∀ q g, group_path q (alter_group (Group.with_entries k) r g)
         = group_path q g.
Proof.
  induction r as [|i r IH]; intros q g; simpl.
  - by destruct q.
  - destruct q as [|j q]; simpl; [done|].
    destruct (decide (i = j)) as [<-|Hne].
    + rewrite list_lookup_alter_eq.
      destruct (Group.subgroups g !! i) as [c|]; simpl; [|done].
      by rewrite alter_group_name, IH.
    + by rewrite list_lookup_alter_ne.
Qed.

(** ** The entry points *)

Lemma secret_write_blank s db_path username password url custom_properties
    force db :
  is_blank (Some s) = true →
  secret_write (Some s) db_path username password url custom_properties
    force db
  = (Raise (ValueError "secret_path is required"), db).
Proof. intros Hb. unfold secret_write. simpl in Hb. by rewrite Hb. Qed.

Lemma secret_to_dic_blank s db :
  is_blank (Some s) = true →
  secret_to_dic (Some s) db
  = (Raise (ValueError "secret_path is required"), db).
Proof. intros Hb. unfold secret_to_dic. simpl in Hb. by rewrite Hb. Qed.

Lemma group_to_dic_blank s db :
  is_blank (Some s) = true →
  group_to_dic (Some s) db
  = (Raise (ValueError "secret_path is required"), db).
Proof. intros Hb. unfold group_to_dic. simpl in Hb. by rewrite Hb. Qed.

(** X14.  A task without [secret_value] never writes: past the library
    test and out of check mode, the run fails with the writer's message,
    and when the database could be opened the failure is the [TypeError]
    of the membership test on [None], raised after the database file was
    created where it was missing and before any call on the store. *)
Theorem writer_without_secret_value_fails host params :
  HAS_LIB host = true →
  WriterParams.secret_value params = None →
  let run := secret_writer.run_module host false params in
  let db_path := WriterParams.db_path params in
  let db_password := WriterParams.db_password params in
  (∃ e, exit run = fail_json (msg_text "Failed to write keepass secret") e)
  ∧ ∀ db,
      (if isfile host db_path then None
       else create_database host db_path db_password) = None →
      PyKeePass_open host db_path db_password = inr db →
      run = mkrun (fail_json (msg_text "Failed to write keepass secret")
                     caught_TypeError)
                  (isfile_call db_path
                   :: (if isfile host db_path then []
                       else [create_database_call db_path db_password])
                   ++ [PyKeePass_call db_path db_password])
                  (Some db).
Proof.
  intros Hlib Hnone run db_path db_password.
  unfold run, secret_writer.run_module, db_path, db_password.
  rewrite Hlib, Hnone. simpl. split.
  - destruct (if isfile host _ then None else _); [by eauto|].
    destruct (PyKeePass_open host _ _); by eauto.
  - intros db -> ->. done.
Qed.

(** X15.  The writer validates the path last: with a blank [secret_path]
    and no file at [db_path], the run fails with the [ValueError] of
    [secret_write] only after the database was created and opened; the
    store itself is not touched. *)
Theorem writer_creates_database_before_validating host params value db :
  let db_path := WriterParams.db_path params in
  let db_password := WriterParams.db_password params in
  HAS_LIB host = true →
  isfile host db_path = false →
  create_database host db_path db_password = None →
  PyKeePass_open host db_path db_password = inr db →
  WriterParams.secret_value params = Some value →
  is_blank (Some (WriterParams.secret_path params)) = true →
  secret_writer.run_module host false params
  = mkrun (fail_json (msg_text "Failed to write keepass secret")
             (caught_exn (ValueError "secret_path is required")))
          [isfile_call db_path;
           create_database_call db_path db_password;
           PyKeePass_call db_path db_password]
          (Some db).
Proof.
  intros db_path db_password Hlib Hfile Hcreate Hopen Hvalue Hb.
  unfold secret_writer.run_module. fold db_path db_password.
  rewrite Hlib, Hfile, Hcreate, Hopen, Hvalue. cbn [negb].
  by rewrite (secret_write_blank _ _ _ _ _ _ _ _ Hb).
Qed.

(** X16.  The two readers only open and look up: whatever the host, the
    mode and the parameters, the only call they make on the host is the
    opening of the database (no file test, no creation), and a run that
    opened the store made lookups only and left its tree as it was. *)
Theorem readers_only_open_and_look_up host check_mode rparams gparams :
  let r := secret_reader.run_module host check_mode rparams in
  let g := group_reader.run_module host check_mode gparams in
  (∀ c, c ∈ host_calls r →
        c = PyKeePass_call (ReaderParams.db_path rparams)
              (ReaderParams.db_password rparams))
  ∧ (∀ c, c ∈ host_calls g →
          c = PyKeePass_call (GroupParams.db_path gparams)
                (GroupParams.db_password gparams))
  ∧ (∀ db', handle r = Some db' →
       ∃ db evs,
         PyKeePass_open host (ReaderParams.db_path rparams)
           (ReaderParams.db_password rparams) = inr db
         ∧ root_group db' = root_group db
         ∧ calls db' = calls db ++ evs
         ∧ forallb is_lookup evs = true)
  ∧ (∀ db', handle g = Some db' →
       ∃ db evs,
         PyKeePass_open host (GroupParams.db_path gparams)
           (GroupParams.db_password gparams) = inr db
         ∧ root_group db' = root_group db
         ∧ calls db' = calls db ++ evs
         ∧ forallb is_lookup evs = true).
Proof.
  intros r g. unfold r, g, secret_reader.run_module, group_reader.run_module.
  destruct (HAS_LIB host); cbn [negb].
  2:{ split_and!; try done; intros c Hc; by apply not_elem_of_nil in Hc. }
  destruct check_mode.
  { split_and!; try done; intros c Hc; by apply not_elem_of_nil in Hc. }
  split_and!.
  - intros c Hc.
    destruct (PyKeePass_open host _ _) as [error|db];
      [|destruct (secret_to_dic _ db) as [[secret|e] db1]];
      simpl in Hc; by apply list_elem_of_singleton in Hc.
  - intros c Hc.
    destruct (PyKeePass_open host _ _) as [error|db];
      [|destruct (group_to_dic _ db) as [[secrets|e] db1]];
      simpl in Hc; by apply list_elem_of_singleton in Hc.
  - intros db'. destruct (PyKeePass_open host _ _) as [error|db]; [done|].
    destruct (is_blank (Some (ReaderParams.secret_path rparams))) eqn:Hb.
    + rewrite (secret_to_dic_blank _ _ Hb). intros [= <-].
      exists db, []. by rewrite app_nil_r.
    + rewrite (secret_to_dic_run _ _ Hb). intros [= <-].
      by exists db, [find_entries_by_path_call
                       (Py.split "/" (ReaderParams.secret_path rparams))].
  - intros db'. destruct (PyKeePass_open host _ _) as [error|db]; [done|].
    destruct (is_blank (Some (GroupParams.group_path gparams))) eqn:Hb.
    + rewrite (group_to_dic_blank _ _ Hb). intros [= <-].
      exists db, []. by rewrite app_nil_r.
    + rewrite (group_to_dic_run _ _ Hb). intros [= <-].
      exists db, (group_lookups (segments (GroupParams.group_path gparams))
                    (root_group db)).
      split_and!; try done. apply group_lookups_are_lookups.
Qed.

(** ** The further properties at sample inputs *)

Lemma root_level_creation_witness :
  secret_write (Some "solo") "keys.kdbx" (Some "u") (Some "p") None
    (Some {[ "k" := "v" ]}) false (open_db empty_root)
  = (Return (Some {[ "solo" := secret_values
                                 (written "solo" (Some "u") (Some "p") None
                                    (Some {[ "k" := "v" ]})) ]}, true),
     mkdb (append_entry
             (written "solo" (Some "u") (Some "p") None
                (Some {[ "k" := "v" ]}))
             (root_group (open_db empty_root)))
          (calls (open_db empty_root)
           ++ [find_entries_by_path_call ["solo"];
               add_entry_call (Some root_group_ref) "solo";
               save_call "keys.kdbx"])).
Proof.
  apply (root_level_creation "solo" "keys.kdbx" (Some "u") (Some "p") None
           (Some {[ "k" := "v" ]}) false (open_db empty_root));
    reflexivity.
Defined.

Lemma root_level_forced_overwrite_witness :
  secret_write (Some "c") "keys.kdbx" (Some "u") (Some "p") None None true
    (open_db store_c)
  = (Return (Some {[ "c" := secret_values
                              (written "c" (Some "u") (Some "p") None
                                 None) ]}, true),
     mkdb (append_entry
             (written "c" (Some "u") (Some "p") None None)
             (Group.with_entries (delete 0)
                (root_group (open_db store_c))))
          (calls (open_db store_c)
           ++ [find_entries_by_path_call ["c"];
               delete_entry_call ([], 0);
               add_entry_call (Some root_group_ref) "c";
               save_call "keys.kdbx"])).
Proof.
  apply (root_level_forced_overwrite "c" "keys.kdbx" (Some "u") (Some "p")
           None None (open_db store_c) ([], 0));
    reflexivity.
Defined.

Lemma root_level_write_idempotent_witness :
  let first :=
    secret_write (Some "solo") "keys.kdbx" (Some "u") (Some "p") None None
      false (open_db empty_root) in
  secret_write (Some "solo") "keys.kdbx" (Some "u2") (Some "p2") None None
    false first.2
  = (Return (Some {[ "solo" := secret_values
                                 (written "solo" (Some "u") (Some "p") None
                                    None) ]}, false),
     mkdb (root_group first.2)
          (calls first.2 ++ [find_entries_by_path_call ["solo"]])).
Proof.
  apply (root_level_write_idempotent "solo" "keys.kdbx" (Some "u") (Some "p")
           None None false (open_db empty_root) (Some "u2") (Some "p2") None
           None);
    reflexivity.
Defined.

Lemma secret_to_dic_leading_slash_witness :
  (secret_to_dic (Some "/a/b/c") (open_db store_abc)).1 = Return ∅.
Proof.
  apply (secret_to_dic_leading_slash "a/b/c" (open_db store_abc)).
  - reflexivity.
  - simpl. repeat constructor. discriminate.
Defined.

Lemma secret_write_slash_single_segment_witness :
  secret_write (Some "/solo") "keys.kdbx" (Some "u") (Some "p") None None
    false (open_db empty_root)
  = (Raise AttributeError,
     mkdb (root_group (open_db empty_root))
          (calls (open_db empty_root)
           ++ [find_entries_by_path_call ["solo"];
               add_entry_call None "solo"])).
Proof.
  apply (secret_write_slash_single_segment "/solo" "solo" "keys.kdbx"
           (Some "u") (Some "p") None None false (open_db empty_root));
    [reflexivity|simpl; lia|reflexivity|reflexivity].
Defined.

Lemma writer_without_secret_value_fails_witness :
  secret_writer.run_module (fresh_host empty_root) false
    (write_task "solo" None)
  = mkrun (fail_json (msg_text "Failed to write keepass secret")
             caught_TypeError)
          [isfile_call "keys.kdbx";
           create_database_call "keys.kdbx" "password";
           PyKeePass_call "keys.kdbx" "password"]
          (Some (open_db empty_root)).
Proof.
  destruct (writer_without_secret_value_fails (fresh_host empty_root)
              (write_task "solo" None) eq_refl eq_refl)
    as [_ Hrun].
  apply (Hrun (open_db empty_root)); reflexivity.
Defined.

Lemma writer_creates_database_before_validating_witness :
  secret_writer.run_module (fresh_host empty_root) false
    (write_task " " (Some john_doe))
  = mkrun (fail_json (msg_text "Failed to write keepass secret")
             (caught_exn (ValueError "secret_path is required")))
          [isfile_call "keys.kdbx";
           create_database_call "keys.kdbx" "password";
           PyKeePass_call "keys.kdbx" "password"]
          (Some (open_db empty_root)).
Proof.
  apply (writer_creates_database_before_validating (fresh_host empty_root)
           (write_task " " (Some john_doe)) john_doe (open_db empty_root));
    reflexivity.
Defined.

(** * The place of the flush in a write *)

Lemma with_save_model : with_save.secret_write save = secret_write.
Proof. reflexivity. Qed.

(** Building the record reads the store and leaves the handle as it is. *)
Lemma convert_reads_only path entry changed db :
  (_convert_secret_to_dic path entry changed db).2 = db.
Proof.
  unfold _convert_secret_to_dic. rewrite bind_run.
  destruct (Py.index path (-1)) as [key|]; simpl; [|done].
  rewrite bind_run. unfold read_entry. rewrite bind_run. simpl.
  by destruct (get_entry entry (root_group db)).
Qed.

(** A flush that returns and leaves the tree alone is followed by the
    record of the entry, with [changed = True]. *)
Lemma flush_and_convert_returns sv db_path path entry mid saved key x :
  last path = Some key →
  get_entry entry (root_group mid) = Some x →
  sv db_path mid = (Return tt, saved) →
  root_group saved = root_group mid →
  flush_and_convert sv db_path path entry mid
  = (Return (Some {[ key := secret_values x ]}, true), saved).
Proof.
  intros Hkey Hx Hsv Hroot. unfold flush_and_convert.
  rewrite bind_run, Hsv. apply convert_run; [done|by rewrite Hroot].
Qed.

(** A flush that fails ends the run with its exception. *)
Lemma flush_and_convert_raises sv db_path path entry mid failed e :
  sv db_path mid = (Raise e, failed) →
  flush_and_convert sv db_path path entry mid = (Raise e, failed).
Proof.
  intros Hsv. unfold flush_and_convert. by rewrite bind_run, Hsv.
Qed.







Lemma with_save_segments sv s db_path username password url
    custom_properties force :
  is_blank (Some s) = false →
  with_save.secret_write sv (Some s) db_path username password url
    custom_properties force
  = if (1 <? length (Py.split "/" s))%nat
    then with_save.secret_write_groups sv (segments s) db_path username
           password url custom_properties force
    else with_save.secret_write_root sv (segments s) db_path username
           password url custom_properties force.
Proof.
  intros Hb. unfold with_save.secret_write. rewrite (not_blank_inv _ Hb).
  simpl.
  destruct (1 <? length (Py.split "/" s))%nat eqn:Hlen; [done|].
  apply Nat.ltb_ge in Hlen. pose proof (split_length_pos "/" s).
  assert (length (Py.split "/" s) = 1) as H1 by lia.
  rewrite H1. simpl. unfold segments.
  by rewrite <- (compact_split_single s (not_blank_nonempty _ Hb) H1).
Qed.




(** ** Nested writes below a group that does not exist yet, up to the flush *)

Lemma creation_tail_with_exact sv path db_path r d title username password
    url force_creation custom_properties step db :
  attaches_all custom_properties step →
  get_group r (root_group db) = Some d →
  clashes title username (Group.entries d) && negb force_creation = false →
  creation_tail_with sv path db_path (Some r) title username password url
    force_creation step db
  = flush_and_convert sv db_path path (r, length (Group.entries d))
      (mkdb (alter_group
               (append_entry
                  (written title username password url custom_properties))
               r (root_group db))
            (calls db ++ [add_entry_call (Some r) title])).
Proof.
  intros Hstep Hd Hclash. unfold creation_tail_with.
  rewrite bind_run, (add_entry_run _ _ _ _ _ _ _ _ Hd), Hclash.
  rewrite bind_run.
  rewrite (Hstep r (root_group db) d (new_entry title username password url)
             (mkdb (alter_group
                      (append_entry (new_entry title username password url))
                      r (root_group db))
                   (calls db ++ [add_entry_call (Some r) title]))
             Hd eq_refl).
  by rewrite set_all_new_entry.
Qed.

(** X9.  A nested write below a top-level group that does not exist yet,
    whatever [force] is and whatever the flush does: the walk creates the
    groups and the written entry becomes the only entry of the deepest of
    them, titled with the first segment of the path; then the flush is
    called on that handle.  When the flush returns and leaves the tree
    alone, the write returns the record of the written entry under the last
    segment with [changed = True]; when it fails, the write fails with it. *)
Theorem nested_write_below_new_group s first rest db_path username password
    url custom_properties force db :
  is_blank (Some s) = false →
  segments s = first :: rest → rest ≠ [] →
  head (group_matches [first] (root_group db)) = None →
  ∃ key parent g mid,
    last (segments s) = Some key
    ∧ group_path parent (root_group mid) = Some (removelast (segments s))
    ∧ get_group parent (root_group mid) = Some g
    ∧ Group.entries g
      = [written first username password url custom_properties]
    ∧ existsb is_save (drop (length (calls db)) (calls mid)) = false
    ∧ (∀ sv,
         with_save.secret_write sv (Some s) db_path username password url
           custom_properties force db
         = flush_and_convert sv db_path (segments s) (parent, 0) mid)
    ∧ (∀ sv saved,
         sv db_path mid = (Return tt, saved) →
         root_group saved = root_group mid →
         with_save.secret_write sv (Some s) db_path username password url
           custom_properties force db
         = (Return (Some {[ key := secret_values
                                     (written first username password url
                                        custom_properties) ]}, true),
            saved))
    ∧ (∀ sv e failed,
         sv db_path mid = (Raise e, failed) →
         with_save.secret_write sv (Some s) db_path username password url
           custom_properties force db
         = (Raise e, failed)).
Proof.
  intros Hb Hseg Hrest Hfirst.
  assert ((1 <? length (Py.split "/" s))%nat = true) as Hlen.
  { apply Nat.ltb_lt. destruct (decide (1 < length (Py.split "/" s))%nat)
      as [|Hn]; [done|].
    pose proof (split_length_pos "/" s).
    assert (length (Py.split "/" s) = 1) as H1 by lia.
    unfold segments in Hseg.
    rewrite <- (compact_split_single _ (not_blank_nonempty _ Hb) H1) in Hseg.
    rewrite Hseg in H1. destruct rest; [done|simpl in H1; lia]. }
  set (path := segments s) in *.
  assert (2 ≤ length path)%nat as Hlen2.
  { rewrite Hseg. destruct rest; [done|simpl; lia]. }
  assert (path ≠ []) as Hne by (by rewrite Hseg).
  destruct (head_last_Some path first) as [key Hkey]; [by rewrite Hseg|].
  destruct (materialize_groups_returns path Hne path [] None 0 db)
    as (po & db1 & Hrun); [by intros r|].
  destruct (materialize_groups_spec path path [] None 0 db)
    as (o & db1' & evs & Hrun' & Hlog & Hevs & _ & Hrefl & _); [by intros r|].
  rewrite Hrun in Hrun'. injection Hrun' as <- <-.
  pose proof (materialize_groups_reaches path path [] None db po db1
                eq_refl Hne eq_refl Hrun) as Hreach.
  destruct po as [r|]; [|lia].
  assert (group_path r (root_group db1) = Some (removelast path)) as Hpath.
  { by apply head_Some_elem_of, elem_of_group_matches in Hreach. }
  destruct (group_path_valid _ _ _ Hpath) as [d Hd].
  assert (∀ q, group_path q (root_group db) ≠ Some (removelast path))
    as Hnew.
  { intros q Hq. apply elem_of_group_matches in Hq.
    apply head_None in Hfirst.
    apply (group_matches_prefix [first] (removelast rest)) in Hfirst; [done|].
    rewrite Hseg in Hq. destruct rest as [|x rest']; [done|].
    intros Hnil. simpl in Hq, Hnil. rewrite Hnil in Hq.
    by apply not_elem_of_nil in Hq. }
  assert (Group.entries d = []) as Hempty.
  { destruct (Group.entries d) as [|x es] eqn:Hes; [done|].
    assert (entry_path (r, 0) (root_group db1)
            = Some (removelast path ++ [Entry.title x])) as Hx.
    { unfold entry_path, get_entry. simpl. by rewrite Hpath, Hd, Hes. }
    apply Hrefl, entry_path_inv in Hx as (p' & x' & Heq & Hp' & _).
    apply app_inj_tail in Heq as [<- _]. by destruct (Hnew r). }
  assert (head (entry_matches path (root_group db1)) = None) as He.
  { destruct (head (entry_matches path (root_group db1))) as [e|] eqn:He;
      [|done].
    apply head_Some_elem_of in He.
    apply (reflects_entry_matches _ _ _ _ Hrefl), elem_of_entry_matches in He.
    apply entry_path_inv in He as (p' & x' & Heq & Hp' & _).
    destruct (Hnew e.1). by rewrite Heq, removelast_last. }
  set (y := written first username password url custom_properties).
  set (mid := mkdb (alter_group (append_entry y) r (root_group db1))
                   ((calls db1 ++ [find_entries_by_path_call path])
                    ++ [add_entry_call (Some r) first])).
  assert (∀ sv,
            with_save.secret_write sv (Some s) db_path username password url
              custom_properties force db
            = flush_and_convert sv db_path path (r, 0) mid) as Hwrite.
  { intros sv. rewrite (with_save_segments _ _ _ _ _ _ _ _ Hb), Hlen.
    fold path. unfold with_save.secret_write_groups.
    rewrite bind_run, Hrun.
    rewrite bind_run, find_entries_by_path_run, He.
    rewrite bind_run, from_option_run, index_zero.
    assert (head path = Some first) as -> by (by rewrite Hseg).
    pose proof (creation_tail_with_exact sv path db_path r d first username
                  password url false custom_properties _
                  (mkdb (root_group db1)
                        (calls db1 ++ [find_entries_by_path_call path]))
                  (attaches_all_truthy custom_properties) Hd) as Htail.
    unfold creation_tail_with in Htail.
    rewrite Htail by (by rewrite Hempty). by rewrite Hempty. }
  assert (get_entry (r, 0) (root_group mid) = Some y) as Hy.
  { pose proof (add_entry_valid y r (root_group db1) d Hd) as Hv.
    by rewrite Hempty in Hv. }
  exists key, r, (append_entry y d), mid.
  split_and!; [done| | | | |exact Hwrite| |].
  - simpl. unfold append_entry. by rewrite group_path_alter_entries.
  - simpl. by rewrite get_group_alter, Hd.
  - simpl. by rewrite Hempty.
  - unfold logged in Hlog. simpl. rewrite Hlog, <- !app_assoc.
    rewrite drop_app_length. rewrite !existsb_app. simpl.
    rewrite !orb_false_r. apply not_true_is_false. intros Hex.
    apply existsb_exists in Hex as (c & Hc & Hsave).
    rewrite forallb_forall in Hevs. specialize (Hevs c Hc).
    by destruct c.
  - intros sv saved Hsv Hroot. rewrite Hwrite.
    by apply (flush_and_convert_returns sv db_path path (r, 0) mid saved key y).
  - intros sv e failed Hsv. rewrite Hwrite.
    by apply flush_and_convert_raises.
Qed.

(** ** Materializing twice, from any store *)

(** X1.  Materializing the groups of a nested path twice in succession,
    from any store.  The first walk returns the group at the group segments
    of the path, the first one the lookup finds there in the tree it
    leaves, and keeps every group that was in the tree, with its name and
    its entries.  The second walk returns the same group, makes lookups
    only and leaves the tree of the first walk as it is. *)
Theorem materialize_groups_twice_in_succession path db :
  (2 ≤ length path)%nat →
  let first := materialize_groups path path [] None 0 db in
  ∃ deepest evs,
    first.1 = Return (Some deepest)
    ∧ head (group_matches (removelast path) (root_group first.2))
      = Some deepest
    ∧ kept (root_group db) (root_group first.2)
    ∧ materialize_groups path path [] None 0 first.2
      = (Return (Some deepest),
         mkdb (root_group first.2) (calls first.2 ++ evs))
    ∧ forallb is_lookup evs = true
    ∧ existsb is_add_group evs = false.
Proof.
  intros Hlen first. unfold first.
  assert (path ≠ []) as Hne by (intros ->; simpl in Hlen; lia).
  destruct (materialize_groups_returns path Hne path [] None 0 db)
    as (po & db1 & Hrun); [by intros r|].
  destruct (materialize_groups_spec path path [] None 0 db)
    as (o & db1' & evs0 & Hrun' & _ & _ & Hkept & _); [by intros r|].
  rewrite Hrun in Hrun'. injection Hrun' as <- <-.
  pose proof (materialize_groups_reaches path path [] None db po db1
                eq_refl Hne eq_refl Hrun) as Hreach.
  destruct po as [r|]; [|lia].
  destruct (materialize_groups_twice path db (Some r) db1 Hlen Hrun)
    as (evs & Hrun2 & Hevs).
  exists r, evs. rewrite Hrun. split_and!; try done.
  apply not_true_is_false. intros Hex.
  apply existsb_exists in Hex as (c & Hc & Hadd).
  rewrite forallb_forall in Hevs. specialize (Hevs c Hc). by destruct c.
Qed.

(** ** The entry points, from the module body on *)


(** X13.  What the writer module reports of a run that opened the store is
    what happened to the store.  When such a run exits with
    [changed = True], its calls on the store end with the one [save] to
    [db_path]; when it exits with [changed = False], it made lookups only
    and left the tree as it was.  The exit of such a run carries
    [failed = False] and the path as it was given, and its failure carries
    the writer's message. *)
Theorem writer_reports_store_changes host check_mode params db' :
  let run := secret_writer.run_module host check_mode params in
  handle run = Some db' →
  ∃ db evs,
    PyKeePass_open host (WriterParams.db_path params)
      (WriterParams.db_password params) = inr db
    ∧ calls db' = calls db ++ evs
    ∧ match exit run with
      | exit_json result =>
          WriterResult.failed result = false
          ∧ WriterResult.path result = Some (WriterParams.secret_path params)
          ∧ if WriterResult.changed result
            then ∃ before,
                   evs = before ++ [save_call (WriterParams.db_path params)]
                   ∧ forallb not_save before = true
                   ∧ existsb is_add_entry before = true
            else forallb is_lookup evs = true
                 ∧ root_group db' = root_group db
      | fail_json msg _ => msg = msg_text "Failed to write keepass secret"
      end.
Proof.
  intros run. unfold run, secret_writer.run_module.
  destruct (HAS_LIB host); cbn [negb]; [|done].
  destruct check_mode; [done|].
  destruct (if isfile host _ then None else _); [done|].
  destruct (PyKeePass_open host _ _) as [error|db]; [done|].
  destruct (WriterParams.secret_value params) as [value|].
  2:{ intros [= <-]. exists db, []. by rewrite app_nil_r. }
  pose proof (secret_write_disciplined
                (Some (WriterParams.secret_path params))
                (WriterParams.db_path params)
                (default None (SecretValue.username value))
                (default None (SecretValue.password value))
                (default None (SecretValue.url value))
                (default None (SecretValue.custom_properties value))
                (WriterParams.force params) db) as (evs & Hlog & Hrun).
  destruct (secret_write _ _ _ _ _ _ _ db) as [[[secret changed]|e] db1];
    simpl in *; intros [= <-]; exists db, evs; [|done].
  by split_and!.
Qed.

(** X17.  The readers validate the path last: with a blank path the run
    fails with the [ValueError] of the read, whose message names
    [secret_path] in the group reader too, only after the database was
    opened; the store itself receives no call. *)
Theorem readers_validate_after_opening host rparams gparams db :
  HAS_LIB host = true →
  PyKeePass_open host (ReaderParams.db_path rparams)
    (ReaderParams.db_password rparams) = inr db →
  PyKeePass_open host (GroupParams.db_path gparams)
    (GroupParams.db_password gparams) = inr db →
  is_blank (Some (ReaderParams.secret_path rparams)) = true →
  is_blank (Some (GroupParams.group_path gparams)) = true →
  secret_reader.run_module host false rparams
  = mkrun (fail_json (msg_text "Failed to read keepass secret")
             (caught_exn (ValueError "secret_path is required")))
          [PyKeePass_call (ReaderParams.db_path rparams)
             (ReaderParams.db_password rparams)]
          (Some db)
  ∧ group_reader.run_module host false gparams
    = mkrun (fail_json (msg_text "Failed to read keepass group secrets")
               (caught_exn (ValueError "secret_path is required")))
            [PyKeePass_call (GroupParams.db_path gparams)
               (GroupParams.db_password gparams)]
            (Some db).
Proof.
  intros Hlib Hr Hg Hbr Hbg.
  unfold secret_reader.run_module, group_reader.run_module.
  rewrite Hlib, Hr, Hg. cbn [negb].
  by rewrite (secret_to_dic_blank _ _ Hbr), (group_to_dic_blank _ _ Hbg).
Qed.

(** ** The flush and the entry points at sample inputs *)

Lemma nested_write_below_new_group_witness :
  ∃ key parent g mid,
    last (segments "/a/b/c") = Some key
    ∧ group_path parent (root_group mid)
      = Some (removelast (segments "/a/b/c"))
    ∧ get_group parent (root_group mid) = Some g
    ∧ Group.entries g = [written "a" (Some "u") (Some "p") None None]
    ∧ ∀ sv,
        with_save.secret_write sv (Some "/a/b/c") "keys.kdbx" (Some "u")
          (Some "p") None None false (open_db empty_root)
        = flush_and_convert sv "keys.kdbx" (segments "/a/b/c") (parent, 0)
            mid.
Proof.
  destruct (nested_write_below_new_group "/a/b/c" "a" ["b"; "c"] "keys.kdbx"
              (Some "u") (Some "p") None None false (open_db empty_root))
    as (key & parent & g & mid & Hkey & Hpath & Hg & Hentries & _ & Hrun & _);
    [reflexivity|reflexivity|discriminate|reflexivity|].
  exists key, parent, g, mid.
  split; [exact Hkey|]. split; [exact Hpath|]. split; [exact Hg|].
  split; [exact Hentries|exact Hrun].
Defined.

Lemma materialize_groups_twice_in_succession_witness :
  let first :=
    materialize_groups ["a"; "b"; "c"] ["a"; "b"; "c"] [] None 0
      (open_db empty_root) in
  ∃ deepest evs,
    first.1 = Return (Some deepest)
    ∧ head (group_matches (removelast ["a"; "b"; "c"]) (root_group first.2))
      = Some deepest
    ∧ kept (root_group (open_db empty_root)) (root_group first.2)
    ∧ materialize_groups ["a"; "b"; "c"] ["a"; "b"; "c"] [] None 0 first.2
      = (Return (Some deepest),
         mkdb (root_group first.2) (calls first.2 ++ evs))
    ∧ forallb is_lookup evs = true
    ∧ existsb is_add_group evs = false.
Proof.
  apply (materialize_groups_twice_in_succession ["a"; "b"; "c"]
           (open_db empty_root)).
  simpl. lia.
Defined.

Lemma writer_reports_store_changes_witness :
  ∃ db evs before,
    PyKeePass_open (host_with empty_root) "keys.kdbx" "password" = inr db
    ∧ calls db ++ evs
      = [find_entries_by_path_call ["solo"];
         add_entry_call (Some root_group_ref) "solo";
         save_call "keys.kdbx"]
    ∧ evs = before ++ [save_call "keys.kdbx"]
    ∧ forallb not_save before = true.
Proof.
  assert (handle (secret_writer.run_module (host_with empty_root) false
                    (write_task "solo" (Some john_doe)))
          = Some (mkdb (append_entry
                          (written "solo" (Some "John") (Some "Doe") None
                             (Some {[ "gender" := "Male" ]}))
                          empty_root)
                       [find_entries_by_path_call ["solo"];
                        add_entry_call (Some root_group_ref) "solo";
                        save_call "keys.kdbx"])) as Hrun
    by reflexivity.
  destruct (writer_reports_store_changes (host_with empty_root) false
              (write_task "solo" (Some john_doe)) _ Hrun)
    as (db & evs & Hopen & Hcalls & Hexit).
  assert (exit (secret_writer.run_module (host_with empty_root) false
                  (write_task "solo" (Some john_doe)))
          = exit_json
              (WriterResult.mk true
                 (Some {[ "solo" := secret_values
                                      (written "solo" (Some "John")
                                         (Some "Doe") None
                                         (Some {[ "gender" := "Male" ]})) ]})
                 false (Some "solo"))) as Hexit'
    by reflexivity.
  rewrite Hexit' in Hexit.
  destruct Hexit as (_ & _ & before & Hsave & Hbefore & _).
  exists db, evs, before.
  split; [exact Hopen|]. split; [by rewrite <- Hcalls|]. by split.
Defined.

Lemma readers_validate_after_opening_witness :
  secret_reader.run_module (host_with store_xyz) false (read_task " ")
  = mkrun (fail_json (msg_text "Failed to read keepass secret")
             (caught_exn (ValueError "secret_path is required")))
          [PyKeePass_call "keys.kdbx" "password"]
          (Some (open_db store_xyz))
  ∧ group_reader.run_module (host_with store_xyz) false (group_read_task " ")
    = mkrun (fail_json (msg_text "Failed to read keepass group secrets")
               (caught_exn (ValueError "secret_path is required")))
            [PyKeePass_call "keys.kdbx" "password"]
            (Some (open_db store_xyz)).
Proof.
  apply (readers_validate_after_opening (host_with store_xyz) (read_task " ")
           (group_read_task " ") (open_db store_xyz));
    reflexivity.
Defined.
